(** * ShortsMind (App.tsx): a shallow embedding of the preview pipeline

    The development follows [src/App.tsx]: the JavaScript string
    primitives the caption extractor relies on, the component state and
    its event handlers (with the asynchronous handlers cut at their
    [await] points), the library of saved concepts, and the audio decode
    step of the voice preview. *)

From Equations Require Import Equations.
From Stdlib Require Import QArith Strings.Byte.
From stdpp Require Import base list numbers strings.

Set Default Proof Using "Type".
Local Open Scope N_scope.

(** ** JavaScript strings

    A JavaScript string is a sequence of UTF-16 code units.  All the
    string primitives used by [App.tsx] ([split], [includes], [trim],
    [replace], [join]) work on code units, so a string is a list of
    them. *)

Module JS.

Abbreviation JSString := (list N).

(** ASCII literals, for readable examples. *)
Definition lit (s : string) : JSString :=
  (λ a, N.of_nat (Ascii.nat_of_ascii a)) <$> String.list_ascii_of_string s.

Definition isEmpty (s : JSString) : bool :=
  match s with [] => true | _ :: _ => false end.

(** Truthiness of a string: [Boolean(s)], [!s], [if (s)]. *)
Definition truthy (s : JSString) : bool := negb (isEmpty s).

Fixpoint startsWith (p s : JSString) : bool :=
  match p, s with
  | [], _ => true
  | _ :: _, [] => false
  | a :: p', b :: s' => (a =? b) && startsWith p' s'
  end.

(** [String.prototype.indexOf]: position of the first occurrence. *)
Fixpoint indexOf (sep s : JSString) : option nat :=
  if startsWith sep s then Some 0%nat
  else match s with
       | [] => None
       | _ :: t => S <$> indexOf sep t
       end.

(** [String.prototype.includes]. *)
Definition includes (sep s : JSString) : bool :=
  match indexOf sep s with Some _ => true | None => false end.

(** [String.prototype.split] with a string separator: the loop of the
    language specification, which repeatedly looks for the next
    occurrence of the separator, starting from the end of the previous
    one, and pushes the text in between; the text after the last
    occurrence is pushed at the end.  An empty separator splits into
    single code units.  In the third clause the separator was found at
    [j] in [x :: s'], so the text after it, [drop (j + length (c ::
    sep')) (x :: s')], is [drop (j + length sep') s']. *)
Equations? split (sep s : JSString) : list JSString by wf (length s) lt :=
  split [] s := (λ c, [c]) <$> s;
  split (c :: sep') [] := [[]];
  split (c :: sep') (x :: s') with indexOf (c :: sep') (x :: s') := {
    | Some j => take j (x :: s') :: split (c :: sep') (drop (j + length sep') s');
    | None => [x :: s'] }.
Proof. rewrite length_drop. simpl. lia. Qed.

(** [Array.prototype.join]. *)
Fixpoint join (sep : JSString) (parts : list JSString) : JSString :=
  match parts with
  | [] => []
  | [x] => x
  | x :: rest => x ++ sep ++ join sep rest
  end.

(** White space and line terminators, the code units [trim] removes. *)
Definition isWhiteSpace (c : N) : bool :=
  (c =? 0x09) || (c =? 0x0A) || (c =? 0x0B) || (c =? 0x0C) || (c =? 0x0D)
  || (c =? 0x20) || (c =? 0xA0) || (c =? 0x1680)
  || ((0x2000 <=? c) && (c <=? 0x200A))
  || (c =? 0x2028) || (c =? 0x2029) || (c =? 0x202F) || (c =? 0x205F)
  || (c =? 0x3000) || (c =? 0xFEFF).

Fixpoint trimStart (s : JSString) : JSString :=
  match s with
  | [] => []
  | c :: r => if isWhiteSpace c then trimStart r else s
  end.

Definition trimEnd (s : JSString) : JSString := reverse (trimStart (reverse s)).

(** [String.prototype.trim]. *)
Definition trim (s : JSString) : JSString := trimEnd (trimStart s).

(** [c] is a contiguous part of [s]. *)
Definition infix (c s : JSString) : Prop := ∃ a b, s = a ++ c ++ b.



End JS.

(** ** The component: data model, state and handlers *)

Module App.
Import JS.

(** *** Types ([types.ts] and the [SavedConcept] interface) *)

Inductive ContentCategory := QUOTES | SELF_IMPROVEMENT.

Inductive VisualMode := REALISTIC | ANIMATION | OIL_PAINTING | ORIENTAL_PAINTING.

Record VisualScene := {
  sceneNumber : Z;
  description : JSString;
  prompt : JSString }.

Record ShortsConcept := {
  id : JSString;
  title : JSString;
  hook : JSString;
  detailedScript : JSString;
  visualScenes : list VisualScene;
  visualStyle : JSString;
  targetAudience : JSString;
  personalizedReason : JSString }.

(** [interface SavedConcept extends ShortsConcept]: the concept's own
    fields, then [savedAt] and [category] (here [savedCategory], since
    [category] names the component's state variable). *)
Record SavedConcept := {
  concept : ShortsConcept;
  savedAt : Z;
  savedCategory : ContentCategory }.

(** The two voices passed to [generateSpeech]. *)
Inductive Voice := Kore | Puck.

(** An [AudioContext] object: [ctxId] is its identity (the number of
    contexts constructed before it), [sampleRate] its only option. *)
Record AudioContext := {
  ctxId : nat;
  sampleRate : N }.

(** *** Component state: the [useState] variables and the one [useRef] *)

Record State := {
  category : ContentCategory;
  visualMode : VisualMode;
  philosopherName : JSString;
  keywords : JSString;
  loading : bool;
  concepts : list ShortsConcept;
  selectedConcept : option ShortsConcept;
  previewImage : option JSString;
  imageLoading : bool;
  audioLoading : bool;
  savedConcepts : list SavedConcept;
  showSaved : bool;
  audioContextRef : option AudioContext }.

Definition initialState : State :=
  {| category := QUOTES; visualMode := REALISTIC; philosopherName := [];
     keywords := []; loading := false; concepts := [];
     selectedConcept := None; previewImage := None; imageLoading := false;
     audioLoading := false; savedConcepts := []; showSaved := false;
     audioContextRef := None |}.

(** The state setters returned by [useState] (and the assignment to
    [audioContextRef.current]). *)

Definition setCategory (v : ContentCategory) (st : State) : State :=
  {| category := v; visualMode := visualMode st;
     philosopherName := philosopherName st; keywords := keywords st;
     loading := loading st; concepts := concepts st;
     selectedConcept := selectedConcept st; previewImage := previewImage st;
     imageLoading := imageLoading st; audioLoading := audioLoading st;
     savedConcepts := savedConcepts st; showSaved := showSaved st;
     audioContextRef := audioContextRef st |}.

Definition setVisualMode (v : VisualMode) (st : State) : State :=
  {| category := category st; visualMode := v;
     philosopherName := philosopherName st; keywords := keywords st;
     loading := loading st; concepts := concepts st;
     selectedConcept := selectedConcept st; previewImage := previewImage st;
     imageLoading := imageLoading st; audioLoading := audioLoading st;
     savedConcepts := savedConcepts st; showSaved := showSaved st;
     audioContextRef := audioContextRef st |}.

Definition setPhilosopherName (v : JSString) (st : State) : State :=
  {| category := category st; visualMode := visualMode st;
     philosopherName := v; keywords := keywords st; loading := loading st;
     concepts := concepts st; selectedConcept := selectedConcept st;
     previewImage := previewImage st; imageLoading := imageLoading st;
     audioLoading := audioLoading st; savedConcepts := savedConcepts st;
     showSaved := showSaved st; audioContextRef := audioContextRef st |}.

Definition setKeywords (v : JSString) (st : State) : State :=
  {| category := category st; visualMode := visualMode st;
     philosopherName := philosopherName st; keywords := v;
     loading := loading st; concepts := concepts st;
     selectedConcept := selectedConcept st; previewImage := previewImage st;
     imageLoading := imageLoading st; audioLoading := audioLoading st;
     savedConcepts := savedConcepts st; showSaved := showSaved st;
     audioContextRef := audioContextRef st |}.

Definition setLoading (v : bool) (st : State) : State :=
  {| category := category st; visualMode := visualMode st;
     philosopherName := philosopherName st; keywords := keywords st;
     loading := v; concepts := concepts st;
     selectedConcept := selectedConcept st; previewImage := previewImage st;
     imageLoading := imageLoading st; audioLoading := audioLoading st;
     savedConcepts := savedConcepts st; showSaved := showSaved st;
     audioContextRef := audioContextRef st |}.

Definition setConcepts (v : list ShortsConcept) (st : State) : State :=
  {| category := category st; visualMode := visualMode st;
     philosopherName := philosopherName st; keywords := keywords st;
     loading := loading st; concepts := v;
     selectedConcept := selectedConcept st; previewImage := previewImage st;
     imageLoading := imageLoading st; audioLoading := audioLoading st;
     savedConcepts := savedConcepts st; showSaved := showSaved st;
     audioContextRef := audioContextRef st |}.

Definition setSelectedConcept (v : option ShortsConcept) (st : State) : State :=
  {| category := category st; visualMode := visualMode st;
     philosopherName := philosopherName st; keywords := keywords st;
     loading := loading st; concepts := concepts st; selectedConcept := v;
     previewImage := previewImage st; imageLoading := imageLoading st;
     audioLoading := audioLoading st; savedConcepts := savedConcepts st;
     showSaved := showSaved st; audioContextRef := audioContextRef st |}.

Definition setPreviewImage (v : option JSString) (st : State) : State :=
  {| category := category st; visualMode := visualMode st;
     philosopherName := philosopherName st; keywords := keywords st;
     loading := loading st; concepts := concepts st;
     selectedConcept := selectedConcept st; previewImage := v;
     imageLoading := imageLoading st; audioLoading := audioLoading st;
     savedConcepts := savedConcepts st; showSaved := showSaved st;
     audioContextRef := audioContextRef st |}.

Definition setImageLoading (v : bool) (st : State) : State :=
  {| category := category st; visualMode := visualMode st;
     philosopherName := philosopherName st; keywords := keywords st;
     loading := loading st; concepts := concepts st;
     selectedConcept := selectedConcept st; previewImage := previewImage st;
     imageLoading := v; audioLoading := audioLoading st;
     savedConcepts := savedConcepts st; showSaved := showSaved st;
     audioContextRef := audioContextRef st |}.

Definition setAudioLoading (v : bool) (st : State) : State :=
  {| category := category st; visualMode := visualMode st;
     philosopherName := philosopherName st; keywords := keywords st;
     loading := loading st; concepts := concepts st;
     selectedConcept := selectedConcept st; previewImage := previewImage st;
     imageLoading := imageLoading st; audioLoading := v;
     savedConcepts := savedConcepts st; showSaved := showSaved st;
     audioContextRef := audioContextRef st |}.

Definition setSavedConcepts (v : list SavedConcept) (st : State) : State :=
  {| category := category st; visualMode := visualMode st;
     philosopherName := philosopherName st; keywords := keywords st;
     loading := loading st; concepts := concepts st;
     selectedConcept := selectedConcept st; previewImage := previewImage st;
     imageLoading := imageLoading st; audioLoading := audioLoading st;
     savedConcepts := v; showSaved := showSaved st;
     audioContextRef := audioContextRef st |}.

Definition setShowSaved (v : bool) (st : State) : State :=
  {| category := category st; visualMode := visualMode st;
     philosopherName := philosopherName st; keywords := keywords st;
     loading := loading st; concepts := concepts st;
     selectedConcept := selectedConcept st; previewImage := previewImage st;
     imageLoading := imageLoading st; audioLoading := audioLoading st;
     savedConcepts := savedConcepts st; showSaved := v;
     audioContextRef := audioContextRef st |}.

Definition setAudioContextRef (v : option AudioContext) (st : State) : State :=
  {| category := category st; visualMode := visualMode st;
     philosopherName := philosopherName st; keywords := keywords st;
     loading := loading st; concepts := concepts st;
     selectedConcept := selectedConcept st; previewImage := previewImage st;
     imageLoading := imageLoading st; audioLoading := audioLoading st;
     savedConcepts := savedConcepts st; showSaved := showSaved st;
     audioContextRef := v |}.

(** *** Observable effects and suspended handlers *)

(** The texts passed to [alert]. *)
Inductive AlertMsg :=
| AlertNeedInput        (* handleRecommend: a name or keywords are required *)
| AlertRecommendFailed  (* handleRecommend: the request failed *)
| AlertAudioFailed      (* handleGenerateAudio: synthesis or playback failed *)
| AlertNoCaptions       (* copyCaptions: nothing to extract *)
| AlertCaptionsCopied   (* copyCaptions: copied *)
| AlertAlreadySaved     (* handleSaveConcept: this id is already saved *)
| AlertSaved.           (* handleSaveConcept: saved *)

(** The call sites of [console.error]. *)
Inductive ErrorSite := InLoadSaved | InRecommend | InSelectConcept | InGenerateAudio.

Inductive Effect :=
| Alert (m : AlertMsg)
| ConsoleError (site : ErrorSite)
| GetConceptRecommendations
    (c : ContentCategory) (kw : JSString) (vm : VisualMode) (name : JSString)
| GenerateBackgroundImage (prompt : JSString) (vm : VisualMode)
| GenerateSpeech (text : JSString) (voice : Voice)
| NewAudioContext (ctx : AudioContext)
| SourceStart (ctx : AudioContext)
| ClipboardWriteText (text : JSString).

(** An asynchronous handler suspended at an [await], with the local
    variables its continuation still reads. *)
Inductive Pending :=
| AwaitRecommendations
| AwaitBackgroundImage (concept : ShortsConcept)
| AwaitSpeech
| AwaitDecodeAudioData (ctx : AudioContext).

(** The running component: its state, the handlers suspended at an
    [await], the effects performed so far (oldest first) and the number
    of [AudioContext] objects constructed so far. *)
Record World := {
  state : State;
  pending : list Pending;
  effects : list Effect;
  contexts : nat }.

Definition initialWorld : World :=
  {| state := initialState; pending := []; effects := []; contexts := 0 |}.

Definition update (f : State → State) (w : World) : World :=
  {| state := f (state w); pending := pending w; effects := effects w;
     contexts := contexts w |}.

Definition emit (e : Effect) (w : World) : World :=
  {| state := state w; pending := pending w; effects := effects w ++ [e];
     contexts := contexts w |}.

Definition await (p : Pending) (w : World) : World :=
  {| state := state w; pending := pending w ++ [p]; effects := effects w;
     contexts := contexts w |}.

Definition settle (k : nat) (w : World) : World :=
  {| state := state w; pending := delete k (pending w); effects := effects w;
     contexts := contexts w |}.

Definition constructed (w : World) : World :=
  {| state := state w; pending := pending w; effects := effects w;
     contexts := S (contexts w) |}.

(** Statements of a handler, in program order. *)
Notation "w |> f" := (f w) (at level 45, left associativity, only parsing).

(** *** Loading the saved concepts on mount (the first [useEffect])

    The state variable [savedConcepts] is declared as [SavedConcept[]],
    but the effect passes it the result of [JSON.parse], of type [any],
    as it is.  The functions [asString] to [asSavedConcepts] read a
    value as the typed data it stands for, when it has that shape; the
    code runs no such check, and the model uses them only to tell
    whether the typed [State] can hold the value. *)














(** *** handleRecommend *)

Definition isSelfImprovement (c : ContentCategory) : bool :=
  match c with SELF_IMPROVEMENT => true | QUOTES => false end.

(** The guard of [handleRecommend]:
    [!keywords.trim() && (category === 'SELF_IMPROVEMENT' || !philosopherName.trim())]. *)
Definition missingInput (st : State) : bool :=
  negb (truthy (trim (keywords st)))
  && (isSelfImprovement (category st) || negb (truthy (trim (philosopherName st)))).

Definition handleRecommend (w : World) : World :=
  let st := state w in
  if missingInput st then w |> emit (Alert AlertNeedInput)
  else
    w |> update (setLoading true)
      |> update (setConcepts [])
      |> update (setSelectedConcept None)
      |> update (setPreviewImage None)
      |> update (setShowSaved false)
      |> emit (GetConceptRecommendations
                 (category st) (keywords st) (visualMode st) (philosopherName st))
      |> await AwaitRecommendations.

(** [try] branch after the [await], then [finally]. *)
Definition recommendResolved (result : list ShortsConcept) (w : World) : World :=
  w |> update (setConcepts result) |> update (setLoading false).

(** [catch] branch, then [finally]. *)
Definition recommendRejected (w : World) : World :=
  w |> emit (ConsoleError InRecommend)
    |> emit (Alert AlertRecommendFailed)
    |> update (setLoading false).

(** *** handleSelectConcept *)

(** [a || b] on a possibly undefined string. *)
Definition orElse (a : option JSString) (b : JSString) : JSString :=
  match a with
  | Some s => if truthy s then s else b
  | None => b
  end.

(** [concept.visualScenes[0]?.prompt || concept.title]. *)
Definition imagePrompt (c : ShortsConcept) : JSString :=
  orElse (prompt <$> visualScenes c !! 0%nat) (title c).

Definition handleSelectConcept (c : ShortsConcept) (w : World) : World :=
  w |> update (setSelectedConcept (Some c))
    |> update (setPreviewImage None)
    |> update (setImageLoading true)
    |> emit (GenerateBackgroundImage (imagePrompt c) (visualMode (state w)))
    |> await (AwaitBackgroundImage c).

(** [try] branch after the [await], then [finally]. *)
Definition imageResolved (img : option JSString) (w : World) : World :=
  w |> update (setPreviewImage img) |> update (setImageLoading false).

(** [catch] branch, then [finally]. *)
Definition imageRejected (w : World) : World :=
  w |> emit (ConsoleError InSelectConcept) |> update (setImageLoading false).

(** *** handleGenerateAudio *)

Definition voiceFor (c : ContentCategory) : Voice :=
  match c with QUOTES => Kore | SELF_IMPROVEMENT => Puck end.

Definition handleGenerateAudio (w : World) : World :=
  match selectedConcept (state w) with
  | None => w
  | Some c =>
      w |> update (setAudioLoading true)
        |> emit (GenerateSpeech (hook c) (voiceFor (category (state w))))
        |> await AwaitSpeech
  end.

(** [catch] branch, then [finally]; reached from either [await] and from
    an exception of [decodeBase64]. *)
Definition audioRejected (w : World) : World :=
  w |> emit (ConsoleError InGenerateAudio)
    |> emit (Alert AlertAudioFailed)
    |> update (setAudioLoading false).

(** [if (!audioContextRef.current) audioContextRef.current = new ...;
    const ctx = audioContextRef.current]: the world after the statement
    and the value of [ctx]. *)
Definition currentAudioContext (w : World) : World * AudioContext :=
  match audioContextRef (state w) with
  | Some ctx => (w, ctx)
  | None =>
      let ctx := {| ctxId := contexts w; sampleRate := 24000 |} in
      (w |> constructed
         |> emit (NewAudioContext ctx)
         |> update (setAudioContextRef (Some ctx)),
       ctx)
  end.

(** After [await generateSpeech(...)]: [data] is the value it resolved
    with and [decodes] tells whether [decodeBase64(data)] returns
    (rather than throws).  The handler then suspends on
    [decodeAudioData]. *)
Definition speechResolved (data : option JSString) (decodes : bool) (w : World) : World :=
  if truthy (default [] data) then
    let '(w1, ctx) := currentAudioContext w in
    if decodes then w1 |> await (AwaitDecodeAudioData ctx)
    else audioRejected w1
  else w |> update (setAudioLoading false).

(** After [await decodeAudioData(...)]: the buffer source is created,
    connected to [ctx.destination] and started; then [finally]. *)
Definition audioDecoded (ctx : AudioContext) (w : World) : World :=
  w |> emit (SourceStart ctx) |> update (setAudioLoading false).

(** *** copyCaptions *)

Definition newline : JSString := [0x0A].
Definition quote : N := 0x22.

(** The marker literal of [copyCaptions]: an opening bracket, the two
    Hangul syllables U+C790 U+B9C9 and a closing bracket. *)
Definition captionMarker : JSString := [0x5B; 0xC790; 0xB9C9; 0x5D].

(** [s.replace(/^"|"$/g, '')].  The pattern has no [m] flag, so [^]
    matches only at index 0 and [$] only at the end of the string; the
    global scan visits the indices in order and deletes the code unit
    at index [i] when it is a quote and [i] is the first or the last
    index. *)
Fixpoint replaceQuotesFrom (i : nat) (s : JSString) : JSString :=
  match s with
  | [] => []
  | c :: r =>
      if (c =? quote) && (Nat.eqb i 0 || isEmpty r)
      then replaceQuotesFrom (S i) r
      else c :: replaceQuotesFrom (S i) r
  end.

Definition replaceAnchoredQuotes (s : JSString) : JSString := replaceQuotesFrom 0 s.

(** The callback of [.map]:
    [parts.length > 1 ? parts[1].trim().replace(/^"|"$/g, '') : '']. *)
Definition captionOf (l : JSString) : JSString :=
  let parts := split captionMarker l in
  match parts !! 1%nat with
  | Some part => replaceAnchoredQuotes (trim part)
  | None => []
  end.

(** The value of [captions] in [copyCaptions]. *)
Definition extractCaptions (script : JSString) : JSString :=
  join newline
    (List.filter truthy
       (captionOf <$> List.filter (includes captionMarker) (split newline script))).

Definition copyCaptions (w : World) : World :=
  match selectedConcept (state w) with
  | None => w
  | Some c =>
      let captions := extractCaptions (detailedScript c) in
      if negb (truthy captions) then w |> emit (Alert AlertNoCaptions)
      else w |> emit (ClipboardWriteText captions)
             |> emit (Alert AlertCaptionsCopied)
  end.

(** *** The library: handleSaveConcept, handleDeleteSaved, clearing *)

Definition savedId (c : SavedConcept) : JSString := id (concept c).

(** [now] is the value of [Date.now()]. *)
Definition handleSaveConcept (now : Z) (w : World) : World :=
  let st := state w in
  match selectedConcept st with
  | None => w
  | Some sel =>
      match List.find (λ c, bool_decide (savedId c = id sel)) (savedConcepts st) with
      | Some _ => w |> emit (Alert AlertAlreadySaved)
      | None =>
          let newSaved :=
            {| concept := sel; savedAt := now; savedCategory := category st |} in
          w |> update (setSavedConcepts (newSaved :: savedConcepts st))
            |> emit (Alert AlertSaved)
      end
  end.

(** [confirmed] is the answer to [confirm(...)]. *)
Definition handleDeleteSaved (target : JSString) (confirmed : bool) (w : World) : World :=
  let st := state w in
  if confirmed then
    let w1 :=
      w |> update (setSavedConcepts
                     (List.filter (λ c, negb (bool_decide (savedId c = target)))
                                  (savedConcepts st))) in
    if bool_decide (id <$> selectedConcept st = Some target)
    then w1 |> update (setSelectedConcept None) |> update (setPreviewImage None)
    else w1
  else w.

Definition clearLibrary (confirmed : bool) (w : World) : World :=
  if confirmed then w |> update (setSavedConcepts []) else w.

(** Clicking an entry of the library list. *)
Definition openSaved (sc : SavedConcept) (w : World) : World :=
  w |> update (setCategory (savedCategory sc)) |> handleSelectConcept (concept sc).

(** *** The event loop

    One event is either a user interaction, handled to completion or to
    the handler's first [await], or the settlement of the [k]-th
    suspended handler.  Settlements arrive in any order. *)

Inductive Outcome :=
| Rejects
| Recommendations (result : list ShortsConcept)
| Image (img : option JSString)
| Speech (data : option JSString) (decodes : bool)
| DecodedAudio.

Inductive Event :=
| SetCategory (c : ContentCategory)
| SetVisualMode (m : VisualMode)
| SetPhilosopherName (name : JSString)
| SetKeywords (kw : JSString)
| ToggleShowSaved
| CloseSaved
| ClickRecommend
| ClickConcept (c : ShortsConcept)
| ClickSaved (sc : SavedConcept)
| ClickAudio
| ClickCopyCaptions
| ClickSave (now : Z)
| ClickDelete (target : JSString) (confirmed : bool)
| ClickClear (confirmed : bool)
| Settle (k : nat) (o : Outcome).

(** The continuation of the [k]-th suspended handler on outcome [o]; an
    outcome that does not fit the awaited call is not an event of the
    program and leaves the world as it is. *)
Definition resume (k : nat) (o : Outcome) (w : World) : World :=
  match pending w !! k, o with
  | Some AwaitRecommendations, Recommendations result =>
      w |> settle k |> recommendResolved result
  | Some AwaitRecommendations, Rejects => w |> settle k |> recommendRejected
  | Some (AwaitBackgroundImage _), Image img => w |> settle k |> imageResolved img
  | Some (AwaitBackgroundImage _), Rejects => w |> settle k |> imageRejected
  | Some AwaitSpeech, Speech data decodes =>
      w |> settle k |> speechResolved data decodes
  | Some AwaitSpeech, Rejects => w |> settle k |> audioRejected
  | Some (AwaitDecodeAudioData ctx), DecodedAudio => w |> settle k |> audioDecoded ctx
  | Some (AwaitDecodeAudioData _), Rejects => w |> settle k |> audioRejected
  | _, _ => w
  end.

Definition step (w : World) (e : Event) : World :=
  match e with
  | SetCategory c => w |> update (setCategory c)
  | SetVisualMode m => w |> update (setVisualMode m)
  | SetPhilosopherName name => w |> update (setPhilosopherName name)
  | SetKeywords kw => w |> update (setKeywords kw)
  | ToggleShowSaved => w |> update (setShowSaved (negb (showSaved (state w))))
  | CloseSaved => w |> update (setShowSaved false)
  | ClickRecommend => handleRecommend w
  | ClickConcept c => handleSelectConcept c w
  | ClickSaved sc => openSaved sc w
  | ClickAudio => handleGenerateAudio w
  | ClickCopyCaptions => copyCaptions w
  | ClickSave now => handleSaveConcept now w
  | ClickDelete target confirmed => handleDeleteSaved target confirmed w
  | ClickClear confirmed => clearLibrary confirmed w
  | Settle k o => resume k o w
  end.

Definition run (w : World) (trace : list Event) : World := foldl step w trace.

(** *** Observations on a run *)

(** The [AudioContext] objects constructed so far, oldest first. *)
Definition createdContexts (w : World) : list AudioContext :=
  omap (λ e, match e with NewAudioContext ctx => Some ctx | _ => None end) (effects w).

(** The contexts on which a playback was started, oldest first. *)
Definition playbackContexts (w : World) : list AudioContext :=
  omap (λ e, match e with SourceStart ctx => Some ctx | _ => None end) (effects w).

(** The invariant of the shared audio context: the contexts constructed
    are exactly the one held by [audioContextRef], if any, and every
    playback started or being prepared uses that one. *)
Definition sharedContext (w : World) : Prop :=
  contexts w = length (createdContexts w)
  ∧ createdContexts w = option_list (audioContextRef (state w))
  ∧ Forall (λ e, ∀ ctx, e = SourceStart ctx → audioContextRef (state w) = Some ctx)
      (effects w)
  ∧ Forall (λ p, ∀ ctx, p = AwaitDecodeAudioData ctx →
                        audioContextRef (state w) = Some ctx)
      (pending w).

(** The calls issued to the generation service so far. *)
Definition isRequest (e : Effect) : bool :=
  match e with
  | GetConceptRecommendations _ _ _ _ | GenerateBackgroundImage _ _
  | GenerateSpeech _ _ => true
  | _ => false
  end.

Definition requests (w : World) : list Effect := List.filter isRequest (effects w).

Definition savedIds (w : World) : list JSString := savedId <$> savedConcepts (state w).

End App.

(** ** The audio decode step *)

Module Audio.

(** Modelled from the spec: the waveform buffer returned by the decode
    step, whose source ([services/geminiService]) is not available; per
    channel, [frameCount] samples, with the rate and channel count
    supplied by the caller. *)
Record Waveform := {
  waveSampleRate : N;
  numberOfChannels : nat;
  frameCount : nat;
  channelData : list (list Q) }.

(** Modelled from the spec: one signed 16-bit little-endian sample
    (section 4.3; the decoder itself is not among the sources). *)
Definition int16 (lo hi : byte) : Z :=
  let u := (Z.of_N (Byte.to_N lo) + 256 * Z.of_N (Byte.to_N hi))%Z in
  if (u <? 32768)%Z then u else (u - 65536)%Z.

(** Modelled from the spec: the samples of a byte sequence; a trailing
    incomplete sample is dropped (section 4.3). *)
Fixpoint samples (bytes : list byte) : list Z :=
  match bytes with
  | lo :: hi :: rest => int16 lo hi :: samples rest
  | _ => []
  end.

(** Modelled from the spec: normalization divides by 32768.0
    (section 4.3). *)
Definition normalize (sample : Z) : Q := (inject_Z sample / 32768)%Q.

(** Modelled from the spec: [decodeAudioData] of
    [services/geminiService] (the specification's [pcmToWaveform]) is
    imported by [App.tsx] but is not among the sources.  Following
    section 4.3: the bytes are signed 16-bit little-endian samples
    interleaved by channel, there are [floor (byteLength / 2 /
    channelCount)] samples per channel, and each sample is divided by
    32768.0.  A 16-bit integer divided by a power of two is exact in
    binary floating point, so sample values are rationals here. *)
Definition pcmToWaveform (bytes : list byte) (rate : N) (channelCount : nat) : Waveform :=
  let frames := (length bytes / 2 / channelCount)%nat in
  let int16s := samples bytes in
  {| waveSampleRate := rate;
     numberOfChannels := channelCount;
     frameCount := frames;
     channelData :=
       (λ channel,
          (λ i, normalize (nth (i * channelCount + channel) int16s 0%Z))
            <$> seq 0 frames)
         <$> seq 0 channelCount |}.

End Audio.

(** ** The caption extractor as the specification words it *)

Module CaptionSpec.
Import JS App.

(** The substring following the marker. *)
Definition afterMarker (l : JSString) : JSString :=
  match indexOf captionMarker l with
  | Some j => drop (j + length captionMarker) l
  | None => []
  end.

(** The text up to the next marker, or all of it when there is none. *)
Definition upToMarker (r : JSString) : JSString :=
  match indexOf captionMarker r with
  | Some k => take k r
  | None => r
  end.

Definition stripLeadingQuote (s : JSString) : JSString :=
  match s with
  | c :: r => if c =? quote then r else s
  | [] => []
  end.

Fixpoint stripTrailingQuote (s : JSString) : JSString :=
  match s with
  | [] => []
  | [c] => if c =? quote then [] else [c]
  | c :: r => c :: stripTrailingQuote r
  end.

(** Trim, then strip one leading and one trailing quote. *)
Definition clean (s : JSString) : JSString :=
  stripTrailingQuote (stripLeadingQuote (trim s)).

(** The algorithm of section 4.4, step by step; [segment] is what is
    taken from a retained line. *)
Definition extractWith (segment : JSString → JSString) (script : JSString) : JSString :=
  join newline
    (List.filter truthy
       ((λ l, clean (segment l))
          <$> List.filter (includes captionMarker) (split newline script))).

Definition specExtractCaptions : JSString → JSString := extractWith afterMarker.

(** Each line of a text prefixed with the marker again. *)
Definition rewrap (text : JSString) : JSString :=
  join newline ((λ l, captionMarker ++ l) <$> split newline text).

End CaptionSpec.

(** ** Sample data *)

Module Sample.
Import JS App.

Definition scene (p : string) : VisualScene :=
  {| sceneNumber := 1; description := lit "scene"; prompt := lit p |}.

Definition conceptOf (i t script : string) (scenes : list VisualScene) : ShortsConcept :=
  {| id := lit i; title := lit t; hook := lit "hook";
     detailedScript := lit script; visualScenes := scenes;
     visualStyle := lit "style"; targetAudience := lit "all";
     personalizedReason := lit "reason" |}.

Definition conceptA : ShortsConcept := conceptOf "A" "Title A" "" [scene "sunrise"].
Definition conceptB : ShortsConcept := conceptOf "B" "Title B" "" [scene "forest"].
Definition conceptC : ShortsConcept := conceptOf "C" "Title C" "" [scene ""].






(** A line with two markers: marker, [a], marker, [b]. *)
Definition twoMarkers : JSString :=
  captionMarker ++ lit "a" ++ captionMarker ++ lit "b".

(** A caption wrapped in two pairs of quotes. *)
Definition doublyQuoted : JSString :=
  captionMarker ++ [quote; quote] ++ lit "hi" ++ [quote; quote].

End Sample.

(** ** What the component renders

    The parts of the JSX of [App] that depend on the state: what the
    preview pane shows, how the script lines and the save button are
    styled, and which controls exist and are enabled. *)

Module View.
Import JS App.

#[global] Instance VisualScene_eq_dec : EqDecision VisualScene.
Proof. solve_decision. Defined.

#[global] Instance ShortsConcept_eq_dec : EqDecision ShortsConcept.
Proof. solve_decision. Defined.

#[global] Instance ContentCategory_eq_dec : EqDecision ContentCategory.
Proof. solve_decision. Defined.

#[global] Instance SavedConcept_eq_dec : EqDecision SavedConcept.
Proof. solve_decision. Defined.

(** The background of the phone mock-up, in the right column:
    [selectedConcept ? (imageLoading ? spinner : previewImage ? img :
    empty) : placeholder]. *)
Inductive PreviewPane :=
| Placeholder
| Spinner
| Picture (src : JSString)
| EmptyBackground.

Definition previewPane (st : State) : PreviewPane :=
  match selectedConcept st with
  | None => Placeholder
  | Some _ =>
      if imageLoading st then Spinner
      else if truthy (default [] (previewImage st))
           then Picture (default [] (previewImage st))
           else EmptyBackground
  end.

(** The save button is drawn filled when
    [savedConcepts.find(c => c.id === selectedConcept.id)] finds an
    entry; there is no button ([None]) without a selection. *)
Definition saveButtonFilled (st : State) : option bool :=
  match selectedConcept st with
  | None => None
  | Some sel =>
      Some (match List.find (λ c, bool_decide (savedId c = id sel)) (savedConcepts st) with
            | Some _ => true
            | None => false
            end)
  end.

(** The narration tag of the script view: an opening bracket, the four
    Hangul syllables U+B098 U+B808 U+C774 U+C158 and a closing bracket. *)
Definition narrationMarker : JSString := [0x5B; 0xB098; 0xB808; 0xC774; 0xC158; 0x5D].

Inductive LineStyle := CaptionLine | NarrationLine | PlainLine.

#[global] Instance LineStyle_eq_dec : EqDecision LineStyle.
Proof. solve_decision. Defined.

(** [line.includes(caption tag) ? ... : line.includes(narration tag) ? ... : ...]. *)
Definition lineStyle (line : JSString) : LineStyle :=
  if includes captionMarker line then CaptionLine
  else if includes narrationMarker line then NarrationLine
  else PlainLine.

(** The script view: [detailedScript.split('\n').map(...)], one
    paragraph per line with its style. *)
Definition scriptView (c : ShortsConcept) : list (LineStyle * JSString) :=
  (λ line, (lineStyle line, line)) <$> split newline (detailedScript c).

Definition isQuotes (c : ContentCategory) : bool :=
  match c with QUOTES => true | SELF_IMPROVEMENT => false end.

Definition hasSelection (st : State) : bool :=
  match selectedConcept st with Some _ => true | None => false end.

(** Whether the control behind an event exists in the rendered tree and
    is not disabled.  The settings form is rendered when [showSaved] is
    off (the featured-figure input only for QUOTES, the button of
    [handleRecommend] with [disabled={loading}]); the library, with its
    entries, their delete buttons and the clear button (only for a
    non-empty library), when it is on; the list of concepts when
    [showSaved] is off; the preview with the audio button
    ([disabled={audioLoading}]), the save button and the copy button
    when a concept is selected.  Settlements are not user events. *)
Definition enabled (w : World) (e : Event) : bool :=
  let st := state w in
  match e with
  | ToggleShowSaved => true
  | SetCategory _ | SetVisualMode _ | SetKeywords _ => negb (showSaved st)
  | SetPhilosopherName _ => negb (showSaved st) && isQuotes (category st)
  | ClickRecommend => negb (showSaved st) && negb (loading st)
  | CloseSaved => showSaved st
  | ClickClear _ => showSaved st && negb (Nat.eqb (length (savedConcepts st)) 0)
  | ClickSaved sc => showSaved st && bool_decide (sc ∈ savedConcepts st)
  | ClickDelete target _ => showSaved st && bool_decide (target ∈ savedIds w)
  | ClickConcept c => negb (showSaved st) && bool_decide (c ∈ concepts st)
  | ClickAudio => hasSelection st && negb (audioLoading st)
  | ClickSave _ | ClickCopyCaptions => hasSelection st
  | Settle _ _ => true
  end.

(** A trace whose every event is possible in the interface when it
    happens. *)
Fixpoint possible (w : World) (trace : list Event) : bool :=
  match trace with
  | [] => true
  | e :: rest => enabled w e && possible (step w e) rest
  end.

(** The handlers suspended on a call of a given kind. *)
Definition awaitsRecommendations (p : Pending) : bool :=
  match p with AwaitRecommendations => true | _ => false end.

Definition awaitsImage (p : Pending) : bool :=
  match p with AwaitBackgroundImage _ => true | _ => false end.

Definition awaitsAudio (p : Pending) : bool :=
  match p with AwaitSpeech | AwaitDecodeAudioData _ => true | _ => false end.

Definition inFlight (kind : Pending → bool) (w : World) : nat :=
  length (List.filter kind (pending w)).

(** Every loading flag that is set is backed by a suspended handler. *)
Definition flagsBacked (w : World) : Prop :=
  (loading (state w) = true → (1 ≤ inFlight awaitsRecommendations w)%nat)
  ∧ (imageLoading (state w) = true → (1 ≤ inFlight awaitsImage w)%nat)
  ∧ (audioLoading (state w) = true → (1 ≤ inFlight awaitsAudio w)%nat)
  ∧ (loading (state w) = true → concepts (state w) = []).

(** With the buttons disabled while their flag is set, a flag is set
    exactly while one handler of its kind is suspended. *)
Definition oneAtATime (w : World) : Prop :=
  inFlight awaitsRecommendations w = (if loading (state w) then 1 else 0)%nat
  ∧ inFlight awaitsAudio w = (if audioLoading (state w) then 1 else 0)%nat.

End View.

(** ** Facts about the string primitives *)

Section StringFacts.
Import JS.
Implicit Types (s p sep a b r : JSString) (x c : N).

Lemma startsWith_spec p s : startsWith p s = true ↔ ∃ r, s = p ++ r.
Proof.
  revert s; induction p as [|a p IH]; intros s; simpl.
  - split; [eauto | done].
  - destruct s as [|b s].
    + split; [done | intros [r Hr]; discriminate].
    + rewrite andb_true_iff, N.eqb_eq, IH. split.
      * intros [-> [r ->]]. eauto.
      * intros [r Hr]. injection Hr as -> ->. eauto.
Qed.

Lemma startsWith_app p r : startsWith p (p ++ r) = true.
Proof. apply startsWith_spec. eauto. Qed.

Lemma startsWith_app_r p s r : startsWith p s = true → startsWith p (s ++ r) = true.
Proof.
  rewrite !startsWith_spec. intros [t ->]. exists (t ++ r). by rewrite app_assoc.
Qed.

Lemma startsWith_nil c p : startsWith (c :: p) [] = false.
Proof. done. Qed.

Lemma indexOf_Some sep s j :
  indexOf sep s = Some j → ∃ a r, s = a ++ sep ++ r ∧ length a = j.
Proof.
  revert j; induction s as [|c s IH]; intros j; simpl.
  - destruct (startsWith sep []) eqn:E; [|done].
    intros [= <-]. apply startsWith_spec in E as [r ->]. by exists [], r.
  - destruct (startsWith sep (c :: s)) eqn:E.
    + intros [= <-]. apply startsWith_spec in E as [r ->]. by exists [], r.
    + destruct (indexOf sep s) as [k|]; [|done].
      intros [= <-]. destruct (IH k eq_refl) as (a & r & -> & <-).
      by exists (c :: a), r.
Qed.

Lemma indexOf_Some_length sep s j :
  indexOf sep s = Some j → (j + length sep ≤ length s)%nat.
Proof.
  intros (a & r & -> & <-)%indexOf_Some. rewrite !length_app. lia.
Qed.

Lemma indexOf_startsWith sep s : startsWith sep s = true → indexOf sep s = Some 0%nat.
Proof. intros E. destruct s; simpl; by rewrite E. Qed.

(** An occurrence anywhere is found. *)
Lemma indexOf_occurs sep a r : is_Some (indexOf sep (a ++ sep ++ r)).
Proof.
  induction a as [|c a IH]; simpl.
  - rewrite indexOf_startsWith; [eauto | apply startsWith_app].
  - destruct (startsWith sep (c :: a ++ sep ++ r)); [eauto|].
    destruct IH as [k ->]. simpl. eauto.
Qed.

Lemma indexOf_None sep s :
  indexOf sep s = None ↔ ¬ ∃ a r, s = a ++ sep ++ r.
Proof.
  split.
  - intros HN (a & r & ->). destruct (indexOf_occurs sep a r) as [k Hk]. congruence.
  - intros HN. destruct (indexOf sep s) as [j|] eqn:E; [|done].
    apply indexOf_Some in E as (a & r & -> & _). destruct HN; eauto.
Qed.

(** Nothing occurs before the first occurrence. *)
Lemma indexOf_take sep s j :
  sep ≠ [] → indexOf sep s = Some j → indexOf sep (take j s) = None.
Proof.
  intros Hsep. revert j; induction s as [|c s IH]; intros j; simpl.
  - destruct sep; [done|]. done.
  - destruct (startsWith sep (c :: s)) eqn:E.
    + intros [= <-]. simpl. by destruct sep.
    + destruct (indexOf sep s) as [k|] eqn:Ek; [|done].
      intros [= <-]. simpl.
      destruct (startsWith sep (c :: take k s)) eqn:E'.
      * apply (startsWith_app_r _ _ (drop k s)) in E'.
        simpl in E'. rewrite take_drop in E'. congruence.
      * by rewrite (IH k).
Qed.

Lemma split_step c sep s :
  split (c :: sep) s =
  match indexOf (c :: sep) s with
  | Some j => take j s :: split (c :: sep) (drop (j + length (c :: sep)) s)
  | None => [s]
  end.
Proof.
  destruct s as [|x s]; simp split; [done|].
  destruct (indexOf (c :: sep) (x :: s)) as [j|] eqn:E; simpl; [|done].
  by rewrite Nat.add_succ_r.
Qed.

End StringFacts.

(** *** Contiguous parts of a string *)

Section Infix.
Import JS.
Implicit Types (s p sep a b c r : JSString) (x : N).

Lemma infix_refl s : infix s s.
Proof. exists [], []. by rewrite app_nil_r. Qed.

Lemma infix_trans c p s : infix c p → infix p s → infix c s.
Proof.
  intros (a & b & ->) (a' & b' & ->). exists (a' ++ a), (b ++ b').
  by rewrite <- !app_assoc.
Qed.

Lemma infix_prefix c b : infix c (c ++ b).
Proof. by exists [], b. Qed.

Lemma infix_suffix a c : infix c (a ++ c).
Proof. exists a, []. by rewrite app_nil_r. Qed.

Lemma infix_take j s : infix (take j s) s.
Proof. rewrite <- (take_drop j s) at 2. apply infix_prefix. Qed.

Lemma infix_drop j s : infix (drop j s) s.
Proof. rewrite <- (take_drop j s) at 2. apply infix_suffix. Qed.

Lemma infix_elem_of x c s : infix c s → x ∉ s → x ∉ c.
Proof. intros (a & b & ->). rewrite !elem_of_app. tauto. Qed.

Lemma infix_indexOf sep c s : infix c s → indexOf sep s = None → indexOf sep c = None.
Proof.
  intros (a & b & ->). rewrite !indexOf_None. intros HN (a' & r' & ->).
  apply HN. exists (a ++ a'), (r' ++ b). by rewrite <- !app_assoc.
Qed.

Lemma infix_trimStart s : infix (trimStart s) s.
Proof.
  induction s as [|c s IH]; simpl; [apply infix_refl|].
  destruct (isWhiteSpace c); [|apply infix_refl].
  eapply infix_trans; [apply IH | apply (infix_suffix [c])].
Qed.

Lemma infix_reverse c s : infix c s → infix (reverse c) (reverse s).
Proof.
  intros (a & b & ->). exists (reverse b), (reverse a).
  by rewrite !reverse_app, <- app_assoc.
Qed.

Lemma infix_trim s : infix (trim s) s.
Proof.
  unfold trim, trimEnd. eapply infix_trans; [|apply infix_trimStart].
  rewrite <- (reverse_involutive (trimStart s)) at 2.
  apply infix_reverse, infix_trimStart.
Qed.

(** Every part produced by [split] is a contiguous part of the input
    in which the separator does not occur. *)
Lemma split_parts (x : N) sep s :
  Forall (λ p, infix p s ∧ indexOf (x :: sep) p = None) (split (x :: sep) s).
Proof.
  remember (length s) as n eqn:Hn. revert s Hn.
  induction n as [n IH] using lt_wf_ind. intros s ->.
  rewrite split_step. destruct (indexOf (x :: sep) s) as [j|] eqn:Hj.
  - constructor; [split; [apply infix_take | by apply indexOf_take]|].
    apply indexOf_Some_length in Hj as Hlen. simpl in Hlen.
    eapply Forall_impl.
    + eapply (IH _ _ _ eq_refl).
    + intros p [Hp ?]. split; [|done].
      eapply infix_trans; [done | apply infix_drop].
  - constructor; [|constructor]. split; [apply infix_refl | done].
  Unshelve. rewrite length_drop. simpl. lia.
Qed.

End Infix.

(** ** The caption extractor *)

Section CaptionFacts.
Import JS App CaptionSpec.
Implicit Types (s l r script : JSString).

(** Past index 0 the scan of [replace] only looks at the last index. *)
Lemma replaceQuotesFrom_S i s : replaceQuotesFrom (S i) s = stripTrailingQuote s.
Proof.
  revert i; induction s as [|c s IH]; intros i; [done|].
  simpl. rewrite IH. destruct s as [|d s]; simpl; [|by rewrite andb_false_r].
  rewrite andb_true_r. by destruct (c =? quote).
Qed.

(** The regular-expression replacement strips one leading and one
    trailing quote. *)
Lemma replaceAnchoredQuotes_strip s :
  replaceAnchoredQuotes s = stripTrailingQuote (stripLeadingQuote s).
Proof.
  destruct s as [|c s]; [done|].
  unfold replaceAnchoredQuotes. simpl. rewrite !replaceQuotesFrom_S.
  destruct (c =? quote) eqn:E; simpl; [done|].
  destruct s; simpl; by rewrite ?E.
Qed.

(** [parts[1]] is the text between the first marker and the next. *)
Lemma split_second l j :
  indexOf captionMarker l = Some j →
  split captionMarker l !! 1%nat = Some (upToMarker (afterMarker l)).
Proof.
  intros Hj. unfold afterMarker, upToMarker, captionMarker in *.
  rewrite split_step, Hj. simpl lookup.
  rewrite split_step.
  by destruct (indexOf _ (drop _ l)).
Qed.

Lemma captionOf_marked l :
  includes captionMarker l = true → captionOf l = clean (upToMarker (afterMarker l)).
Proof.
  unfold includes, captionOf.
  destruct (indexOf captionMarker l) as [j|] eqn:Hj; [intros _|done].
  by rewrite (split_second l j), replaceAnchoredQuotes_strip.
Qed.

Lemma captions_of_marked (ls : list JSString) :
  captionOf <$> List.filter (includes captionMarker) ls =
  (λ l, clean (upToMarker (afterMarker l))) <$> List.filter (includes captionMarker) ls.
Proof.
  induction ls as [|l ls IH]; [done|]. cbn [List.filter].
  destruct (includes captionMarker l) eqn:E; [|done].
  by rewrite !fmap_cons, IH, captionOf_marked.
Qed.

Lemma filter_none {A} (f : A → bool) (ls : list A) :
  existsb f ls = false → List.filter f ls = [].
Proof.
  induction ls as [|l ls IH]; [done|]. simpl.
  destruct (f l); [done|]. apply IH.
Qed.

Lemma infix_stripLeadingQuote s : infix (stripLeadingQuote s) s.
Proof.
  destruct s as [|c s]; simpl; [apply infix_refl|].
  destruct (c =? quote); [apply (infix_suffix [c]) | apply infix_refl].
Qed.

Lemma stripTrailingQuote_prefix s : ∃ b, s = stripTrailingQuote s ++ b.
Proof.
  induction s as [|c s IH]; [by exists []|].
  destruct s as [|d s].
  - simpl. destruct (c =? quote); [by exists [c] | by exists []].
  - destruct IH as [b E]. exists b.
    change (stripTrailingQuote (c :: d :: s)) with (c :: stripTrailingQuote (d :: s)).
    cbn [app]. by rewrite <- E.
Qed.

Lemma infix_stripTrailingQuote s : infix (stripTrailingQuote s) s.
Proof.
  destruct (stripTrailingQuote_prefix s) as [b E].
  rewrite E at 2. apply infix_prefix.
Qed.

Lemma infix_replaceAnchoredQuotes s : infix (replaceAnchoredQuotes s) s.
Proof.
  rewrite replaceAnchoredQuotes_strip.
  eapply infix_trans; [apply infix_stripTrailingQuote | apply infix_stripLeadingQuote].
Qed.

(** A caption is a contiguous part of its line and contains no marker. *)
Lemma captionOf_parts l :
  infix (captionOf l) l ∧ indexOf captionMarker (captionOf l) = None.
Proof.
  unfold captionOf.
  destruct (split captionMarker l !! 1%nat) as [part|] eqn:E.
  - apply list_elem_of_lookup_2 in E.
    pose proof (split_parts 0x5B [0xC790; 0xB9C9; 0x5D] l) as HF.
    rewrite Forall_forall in HF. destruct (HF part E) as [Hin Hfree].
    assert (infix (replaceAnchoredQuotes (trim part)) part) as Hclean.
    { eapply infix_trans; [apply infix_replaceAnchoredQuotes | apply infix_trim]. }
    split; [by eapply infix_trans | by eapply infix_indexOf].
  - split; [by exists [], l | done].
Qed.

(** *** Single-character separators: splitting into lines *)

Lemma indexOf_single x s : indexOf [x] s = None ↔ x ∉ s.
Proof.
  rewrite indexOf_None. split.
  - intros HN (a & r & ->)%list_elem_of_split. apply HN. by exists a, r.
  - intros HN (a & r & ->). apply HN. rewrite !elem_of_app, elem_of_cons. tauto.
Qed.

Lemma indexOf_single_first x s r :
  x ∉ s → indexOf [x] (s ++ x :: r) = Some (length s).
Proof.
  induction s as [|c s IH]; intros Hx.
  - simpl. by rewrite N.eqb_refl.
  - apply not_elem_of_cons in Hx as [Hne Hx]. simpl.
    destruct (N.eqb_spec x c) as [->|_]; [done|]. simpl.
    by rewrite (IH Hx).
Qed.

Lemma split_join_single x (parts : list JSString) :
  parts ≠ [] → Forall (λ p, x ∉ p) parts → split [x] (join [x] parts) = parts.
Proof.
  induction parts as [|p parts IH]; [done|]. intros _ HF.
  apply Forall_cons in HF as [Hp HF].
  destruct parts as [|q parts].
  - simpl. rewrite split_step. by apply indexOf_single in Hp as ->.
  - change (join [x] (p :: q :: parts)) with (p ++ x :: join [x] (q :: parts)).
    rewrite split_step, indexOf_single_first by done.
    rewrite take_app_length. f_equal.
    rewrite drop_app_add'; [|done]. simpl. by apply IH.
Qed.

Lemma split_single_free x s : Forall (λ p, x ∉ p) (split [x] s).
Proof.
  eapply Forall_impl; [apply split_parts|].
  intros p [_ Hp]. by apply indexOf_single.
Qed.

Lemma filter_all {A} (f : A → bool) (ls : list A) :
  Forall (λ a, f a = true) ls → List.filter f ls = ls.
Proof.
  induction 1 as [|a ls Ha _ IH]; [done|]. simpl. by rewrite Ha, IH.
Qed.

(** The caption lines are non-empty, free of newlines and of markers. *)
Lemma caption_lines_wf script :
  Forall (λ c, truthy c = true ∧ (0x0A ∉ c) ∧ indexOf captionMarker c = None)
    (List.filter truthy
       (captionOf <$> List.filter (includes captionMarker) (split newline script))).
Proof.
  apply Forall_forall. intros c Hc.
  apply list_elem_of_In, filter_In in Hc as [Hc Ht]. split; [done|].
  apply list_elem_of_In, list_elem_of_fmap in Hc as (l & -> & Hl).
  apply list_elem_of_In, filter_In in Hl as [Hl _]. apply list_elem_of_In in Hl.
  pose proof (split_single_free 0x0A script) as HF.
  rewrite Forall_forall in HF. specialize (HF l Hl).
  destruct (captionOf_parts l) as [Hin Hfree].
  split; [by eapply infix_elem_of | done].
Qed.

(** Extraction from one re-wrapped caption line. *)
Lemma captionOf_rewrapped c :
  indexOf captionMarker c = None →
  captionOf (captionMarker ++ c) = replaceAnchoredQuotes (trim c).
Proof.
  intros Hfree. unfold captionOf, captionMarker in *.
  rewrite split_step, (indexOf_startsWith _ _ (startsWith_app _ c)).
  change (drop _ (_ ++ c)) with c. by rewrite split_step, Hfree.
Qed.

(** Extraction from re-wrapped caption lines that are already clean. *)
Lemma extractCaptions_rewrapped (cs : list JSString) :
  cs ≠ [] →
  Forall (λ c, (truthy c = true ∧ (0x0A ∉ c) ∧ indexOf captionMarker c = None)
               ∧ trim c = c ∧ replaceAnchoredQuotes c = c) cs →
  extractCaptions (rewrap (join newline cs)) = join newline cs.
Proof.
  intros Hne HF. unfold rewrap, extractCaptions, newline.
  rewrite (split_join_single _ cs);
    [|done|by eapply Forall_impl; [apply HF|]; intros c [(_ & ? & _) _]].
  rewrite split_join_single; cycle 1.
  { by destruct cs. }
  { apply Forall_fmap. eapply Forall_impl; [apply HF|].
    intros c [(_ & Hnl & _) _]. simpl.
    rewrite !not_elem_of_cons. by repeat split. }
  rewrite (filter_all (includes captionMarker)); cycle 1.
  { apply Forall_fmap. apply Forall_forall. intros c _.
    change (includes captionMarker (captionMarker ++ c) = true).
    unfold includes. by rewrite (indexOf_startsWith _ _ (startsWith_app _ c)). }
  f_equal. clear Hne. induction HF as [|c cs [(Ht & _ & Hfree) [Htrim Hrep]] _ IH]; [done|].
  rewrite !fmap_cons, captionOf_rewrapped, Htrim, Hrep by done.
  cbn [List.filter]. by rewrite Ht, IH.
Qed.

End CaptionFacts.

Section CaptionExtraction.
Import JS App CaptionSpec Sample.

(** C2, as amended.  For every script text [extractCaptions] splits the
    input into lines, keeps exactly the lines containing the caption
    marker, takes from each the text between the first marker and the
    next one (the whole remainder when the marker occurs once), trims
    it, strips one leading and one trailing quote (once, not
    recursively), drops the lines that became empty and joins the rest
    with a newline in the original order; when the marker occurs at
    most once per line this is the substring following the marker, and
    when no line contains the marker the result is the empty string. *)
Theorem extractCaptions_between_markers (script : JS.JSString) :
  extractCaptions script = extractWith (λ l, upToMarker (afterMarker l)) script
  ∧ (forallb (λ l, negb (includes captionMarker (afterMarker l)))
       (split newline script) = true →
     extractCaptions script = specExtractCaptions script)
  ∧ (existsb (includes captionMarker) (split newline script) = false →
     extractCaptions script = []).
Proof.
  unfold extractCaptions, specExtractCaptions, extractWith.
  rewrite captions_of_marked. split; [done|]. split.
  - intros Hone. do 2 f_equal.
    induction (split newline script) as [|l ls IH]; [done|].
    simpl in Hone. apply andb_true_iff in Hone as [Hl Hls]. cbn [List.filter].
    destruct (includes captionMarker l); [|by apply IH].
    rewrite !fmap_cons, (IH Hls). do 2 f_equal.
    unfold upToMarker. unfold includes in Hl.
    by destruct (indexOf captionMarker (afterMarker l)).
  - intros Hnone. by rewrite (filter_none _ _ Hnone).
Qed.

(** The extractor on a one-line script with a single marked caption,
    and on a script without the marker. *)
Lemma extractCaptions_between_markers_witness :
  extractCaptions doublyQuoted = specExtractCaptions doublyQuoted
  ∧ extractCaptions (lit "no caption here") = [].
Proof.
  split.
  - apply (extractCaptions_between_markers doublyQuoted). reflexivity.
  - apply (extractCaptions_between_markers (lit "no caption here")). reflexivity.
Defined.

(** C2, as stated, fails on a line that carries the marker twice: the
    substring following the marker is [a], marker, [b], but the code
    keeps only [a]. *)
Lemma extractCaptions_not_rest_of_line :
  extractCaptions twoMarkers = lit "a"
  ∧ specExtractCaptions twoMarkers = lit "a" ++ captionMarker ++ lit "b"
  ∧ extractCaptions twoMarkers ≠ specExtractCaptions twoMarkers.
Proof. split; [reflexivity|]. split; [reflexivity|]. discriminate. Qed.

End CaptionExtraction.

Section CaptionIdempotence.
Import JS App CaptionSpec Sample.

(** C8, as amended.  For every script text whose extracted caption
    lines carry no leading or trailing white space and no leading or
    trailing quote, extracting again from the output with each of its
    lines re-wrapped with the caption marker yields the same text. *)
Theorem extractCaptions_idempotent_on_clean (script : JS.JSString) :
  Forall (λ c, trim c = c ∧ replaceAnchoredQuotes c = c)
    (split newline (extractCaptions script)) →
  extractCaptions (rewrap (extractCaptions script)) = extractCaptions script.
Proof.
  pose proof (caption_lines_wf script) as Hwf. unfold extractCaptions at 1 3 4.
  destruct (List.filter truthy _) as [|c cs] eqn:E; [done|].
  intros Hclean. unfold newline in Hclean.
  rewrite split_join_single in Hclean;
    [|done|by eapply Forall_impl; [apply Hwf|]; intros ? (_ & ? & _)].
  apply extractCaptions_rewrapped; [done|].
  apply Forall_and. split; [done|]. done.
Qed.

(** A script with two marked lines, one quoted, whose captions are
    clean. *)
Lemma extractCaptions_idempotent_on_clean_witness :
  let script :=
    captionMarker ++ lit " " ++ [quote] ++ lit "hello world" ++ [quote]
    ++ newline ++ lit "narration" ++ newline ++ captionMarker ++ lit "second" in
  extractCaptions (rewrap (extractCaptions script)) = extractCaptions script.
Proof.
  intros script. apply (extractCaptions_idempotent_on_clean script).
  vm_compute. repeat constructor.
Defined.

(** C8, as stated, fails on a caption wrapped in two pairs of quotes:
    each extraction strips one pair. *)
Lemma extractCaptions_not_idempotent :
  extractCaptions doublyQuoted = [quote] ++ lit "hi" ++ [quote]
  ∧ extractCaptions (rewrap (extractCaptions doublyQuoted)) = lit "hi"
  ∧ extractCaptions (rewrap (extractCaptions doublyQuoted)) ≠ extractCaptions doublyQuoted.
Proof. split; [reflexivity|]. split; [reflexivity|]. discriminate. Qed.

End CaptionIdempotence.

(** ** The selection and enrichment handlers *)

Section Selection.
Import JS App Sample.

(** C10.  [handleSelectConcept] asks for the background image with the
    first scene's prompt; when that prompt is the empty string, as when
    there is no scene at all, the concept's title is used instead. *)
Theorem imagePrompt_falls_back_to_title (c : ShortsConcept) (w : World) :
  (∀ scene rest, visualScenes c = scene :: rest → prompt scene = [] →
     imagePrompt c = title c)
  ∧ (visualScenes c = [] → imagePrompt c = title c)
  ∧ (∀ scene rest, visualScenes c = scene :: rest → prompt scene ≠ [] →
     imagePrompt c = prompt scene)
  ∧ effects (handleSelectConcept c w) =
      effects w ++ [GenerateBackgroundImage (imagePrompt c) (visualMode (state w))].
Proof.
  unfold imagePrompt. repeat split.
  - intros scene rest -> Hp. simpl. by rewrite Hp.
  - by intros ->.
  - intros scene rest -> Hne. simpl. by destruct (prompt scene).
Qed.

(** [conceptC] has one scene with an empty prompt. *)
Lemma imagePrompt_falls_back_to_title_witness :
  imagePrompt conceptC = lit "Title C"
  ∧ effects (handleSelectConcept conceptC initialWorld) =
      [GenerateBackgroundImage (lit "Title C") REALISTIC].
Proof.
  destruct (imagePrompt_falls_back_to_title conceptC initialWorld)
    as (Hempty & _ & _ & Heff).
  split.
  - apply (Hempty (scene "") []); reflexivity.
  - rewrite Heff. reflexivity.
Defined.

(** C1, as amended.  The continuation of [handleSelectConcept] makes no
    identity check: when the image request of any selection resolves,
    its result becomes the preview image whatever the current selection
    is, and the selection is left as it was.  A selection clears the
    preview; so after selecting A and then B, the preview is empty, and
    once A's request resolves the preview holds A's result while B is
    still the selected concept. *)
Theorem image_result_stored_without_identity_check
    (w : World) (A B : ShortsConcept) (img : option JSString) :
  (∀ k, pending w !! k = Some (AwaitBackgroundImage A) →
     let w' := step w (Settle k (Image img)) in
     previewImage (state w') = img
     ∧ selectedConcept (state w') = selectedConcept (state w))
  ∧ previewImage (state (run w [ClickConcept A; ClickConcept B])) = None
  ∧ (let w' := run w [ClickConcept A; ClickConcept B;
                      Settle (length (pending w)) (Image img)] in
     selectedConcept (state w') = Some B ∧ previewImage (state w') = img).
Proof.
  split; [|split].
  - intros k Hk. simpl. unfold resume. by rewrite Hk.
  - done.
  - simpl. unfold resume. simpl.
    rewrite <- app_assoc, (lookup_app_r (pending w)) by lia.
    by rewrite Nat.sub_diag.
Qed.

Lemma image_result_stored_without_identity_check_witness :
  let w := run initialWorld [ClickConcept conceptA; ClickConcept conceptB] in
  let w' := step w (Settle 0 (Image (Some (lit "image of A")))) in
  previewImage (state w') = Some (lit "image of A")
  ∧ selectedConcept (state w') = selectedConcept (state w).
Proof.
  intros w.
  apply (image_result_stored_without_identity_check
           w conceptA conceptB (Some (lit "image of A"))).
  reflexivity.
Defined.

(** C1, as stated, fails: A is selected, then B, then A's request
    resolves; B is the selected concept and the preview shows A's
    image. *)
Lemma stale_image_overwrites_preview :
  let w := run initialWorld
             [ClickConcept conceptA; ClickConcept conceptB;
              Settle 0 (Image (Some (lit "image of A")))] in
  pending (run initialWorld [ClickConcept conceptA; ClickConcept conceptB])
    = [AwaitBackgroundImage conceptA; AwaitBackgroundImage conceptB]
  ∧ selectedConcept (state w) = Some conceptB
  ∧ id conceptA ≠ id conceptB
  ∧ previewImage (state w) = Some (lit "image of A")
  ∧ previewImage (state w) ≠ None.
Proof. repeat split; discriminate. Qed.

End Selection.

(** ** The recommendation request *)

Section Recommendation.
Import JS App Sample.

Lemma truthy_false (s : JSString) : negb (truthy s) = true ↔ s = [].
Proof. by destruct s. Qed.

Lemma missingInput_spec (st : State) :
  missingInput st = true ↔
  (category st = SELF_IMPROVEMENT ∧ trim (keywords st) = [])
  ∨ (category st = QUOTES ∧ trim (philosopherName st) = []
     ∧ trim (keywords st) = []).
Proof.
  unfold missingInput.
  rewrite andb_true_iff, orb_true_iff, !truthy_false.
  destruct (category st); simpl; intuition congruence.
Qed.

(** C3, as amended.  [handleRecommend] rejects its input (an alert, no
    request, no change of state) exactly when the category is
    SELF_IMPROVEMENT and the keywords are empty once trimmed, or the
    category is QUOTES and both the featured-figure name and the
    keywords are empty once trimmed; in all other cases it issues the
    single request, with the untrimmed inputs. *)
Theorem handleRecommend_validation (w : World) :
  let st := state w in
  let rejected :=
    (category st = SELF_IMPROVEMENT ∧ trim (keywords st) = [])
    ∨ (category st = QUOTES ∧ trim (philosopherName st) = []
       ∧ trim (keywords st) = []) in
  (rejected ↔ handleRecommend w = emit (Alert AlertNeedInput) w)
  ∧ (rejected → requests (handleRecommend w) = requests w)
  ∧ (¬ rejected ↔
     effects (handleRecommend w) =
       effects w ++ [GetConceptRecommendations
                       (category st) (keywords st) (visualMode st)
                       (philosopherName st)])
  ∧ (¬ rejected →
     requests (handleRecommend w) =
       requests w ++ [GetConceptRecommendations
                        (category st) (keywords st) (visualMode st)
                        (philosopherName st)]
     ∧ pending (handleRecommend w) = pending w ++ [AwaitRecommendations]).
Proof.
  intros st rejected.
  assert (missingInput st = true ↔ rejected) as Hspec by apply missingInput_spec.
  unfold handleRecommend, requests. fold st.
  destruct (missingInput st) eqn:E.
  - assert rejected as Hr by by apply Hspec.
    split; [done|]. split.
    { intros _. simpl. rewrite List.filter_app. simpl. by rewrite app_nil_r. }
    split; [|done]. split; [done|].
    simpl. intros Heq%app_inv_head. discriminate.
  - assert (¬ rejected) as Hr. { intros Hr%Hspec. discriminate. }
    split.
    { split; [done|]. intros Heq. apply (f_equal effects) in Heq.
      simpl in Heq. apply app_inv_head in Heq. discriminate. }
    split; [done|]. split; [done|]. intros _. split; [|done].
    simpl. by rewrite List.filter_app.
Qed.

(** Blank input in the initial state (category QUOTES) is rejected;
    keywords alone are enough for a request. *)
Lemma handleRecommend_validation_witness :
  requests (handleRecommend initialWorld) = []
  ∧ requests (handleRecommend (run initialWorld [SetKeywords (lit "stoic calm")])) =
      [GetConceptRecommendations QUOTES (lit "stoic calm") REALISTIC []].
Proof.
  split.
  - apply (handleRecommend_validation initialWorld). right. by vm_compute.
  - apply (handleRecommend_validation (run initialWorld [SetKeywords (lit "stoic calm")])).
    vm_compute. intros [[? _]|(_ & _ & ?)]; discriminate.
Defined.

(** C3, as stated, fails on keywords made of white space only: the
    category is SELF_IMPROVEMENT and the keywords are not empty, yet
    the input is rejected and no request is issued. *)
Lemma handleRecommend_rejects_blank_keywords :
  let w := run initialWorld [SetCategory SELF_IMPROVEMENT; SetKeywords (lit " ")] in
  category (state w) = SELF_IMPROVEMENT
  ∧ keywords (state w) ≠ []
  ∧ handleRecommend w = emit (Alert AlertNeedInput) w
  ∧ requests (handleRecommend w) = [].
Proof. repeat split; discriminate. Qed.

End Recommendation.

(** ** The library of saved concepts *)

Section Startup.
Import JS App Sample.




End Startup.

Section Library.
Import JS App Sample.
Implicit Types (w : World) (e : Event) (l : list SavedConcept).

Lemma find_saved_Some l (i : JSString) sc :
  List.find (λ c, bool_decide (savedId c = i)) l = Some sc → i ∈ savedId <$> l.
Proof.
  intros [Hin Hid%bool_decide_eq_true]%find_some.
  apply list_elem_of_fmap. exists sc. by rewrite list_elem_of_In.
Qed.

Lemma find_saved_None l (i : JSString) :
  List.find (λ c, bool_decide (savedId c = i)) l = None → i ∉ savedId <$> l.
Proof.
  intros Hnone (sc & -> & Hin%list_elem_of_In)%list_elem_of_fmap.
  pose proof (find_none _ _ Hnone sc Hin) as Hf. simpl in Hf.
  by apply bool_decide_eq_false in Hf.
Qed.

Lemma NoDup_saved_filter (f : SavedConcept → bool) l :
  NoDup (savedId <$> l) → NoDup (savedId <$> List.filter f l).
Proof.
  induction l as [|sc l IH]; [done|]. rewrite fmap_cons, NoDup_cons.
  intros [Hnew Hnd]. simpl. destruct (f sc); [|by apply IH].
  rewrite fmap_cons, NoDup_cons. split; [|by apply IH].
  intros (sc' & Hid & Hin)%list_elem_of_fmap. apply Hnew.
  apply list_elem_of_fmap. exists sc'. split; [done|].
  apply list_elem_of_In, filter_In in Hin as [Hin _]. by apply list_elem_of_In.
Qed.

Lemma count_saved_NoDup l (i : JSString) :
  NoDup (savedId <$> l) → i ∈ savedId <$> l →
  length (List.filter (λ c, bool_decide (savedId c = i)) l) = 1%nat.
Proof.
  induction l as [|sc l IH]; [by intros _ ?%elem_of_nil|].
  rewrite fmap_cons, NoDup_cons, elem_of_cons. intros [Hnew Hnd] Hin. simpl.
  destruct (bool_decide_reflect (savedId sc = i)) as [Heq|Hne].
  - simpl. f_equal. rewrite Heq in Hnew. clear -Hnew.
    induction l as [|sc' l IH]; [done|].
    rewrite fmap_cons, not_elem_of_cons in Hnew. destruct Hnew as [Hne Hnew].
    simpl. rewrite bool_decide_eq_false_2 by done. by apply IH.
  - destruct Hin as [->|Hin]; [done|]. by apply IH.
Qed.

(** What one event does to the library: nothing, a removal of entries,
    or one new entry in front whose id was not there. *)
Lemma saved_after_step w e :
  savedConcepts (state (step w e)) = savedConcepts (state w)
  ∨ (∃ f, savedConcepts (state (step w e)) = List.filter f (savedConcepts (state w)))
  ∨ (∃ sc, savedConcepts (state (step w e)) = sc :: savedConcepts (state w)
           ∧ savedId sc ∉ savedIds w).
Proof.
  destruct e; simpl; try (by left).
  - unfold handleRecommend. destruct (missingInput _); by left.
  - unfold handleGenerateAudio. destruct (selectedConcept (state w)); by left.
  - unfold copyCaptions. destruct (selectedConcept (state w)); [|by left].
    destruct (negb _); by left.
  - unfold handleSaveConcept. destruct (selectedConcept (state w)) as [sel|]; [|by left].
    destruct (List.find _ _) eqn:Hfind; [by left|].
    right; right. eexists. split; [done|]. by apply find_saved_None.
  - unfold handleDeleteSaved. destruct confirmed; [|by left].
    right; left. eexists. by destruct (bool_decide _).
  - unfold clearLibrary. destruct confirmed; [|by left].
    right; left. exists (λ _, false). simpl.
    by induction (savedConcepts (state w)).
  - unfold resume, speechResolved, currentAudioContext.
    repeat case_match; simplify_eq; by left.
Qed.

Lemma NoDup_savedIds_step w e : NoDup (savedIds w) → NoDup (savedIds (step w e)).
Proof.
  intros Hnd. unfold savedIds in *.
  destruct (saved_after_step w e) as [->|[[f ->]|(sc & -> & Hnew)]]; [done| |].
  - by apply NoDup_saved_filter.
  - rewrite fmap_cons. by apply NoDup_cons.
Qed.

Lemma NoDup_savedIds_run w (trace : list Event) :
  NoDup (savedIds w) → NoDup (savedIds (run w trace)).
Proof.
  revert w. induction trace as [|e trace IH]; intros w Hnd; [done|].
  simpl. by apply IH, NoDup_savedIds_step.
Qed.

(** C4.  Starting from a library without duplicate ids, no sequence of
    events produces two entries with the same id.  Saving a concept
    whose id is present is answered with the already-saved notice and
    changes nothing else; so saving the selected concept twice leaves
    exactly one entry with its id, and the second save is the
    already-saved outcome. *)
Theorem library_has_no_duplicate_ids (w0 : World) (trace : list Event) :
  NoDup (savedIds w0) →
  let w := run w0 trace in
  NoDup (savedIds w)
  ∧ (∀ sel now, selectedConcept (state w) = Some sel → id sel ∈ savedIds w →
       handleSaveConcept now w = emit (Alert AlertAlreadySaved) w)
  ∧ (∀ sel now1 now2, selectedConcept (state w) = Some sel →
       let w1 := handleSaveConcept now1 w in
       let w2 := handleSaveConcept now2 w1 in
       w2 = emit (Alert AlertAlreadySaved) w1
       ∧ length (List.filter (λ c, bool_decide (savedId c = id sel))
                   (savedConcepts (state w2))) = 1%nat).
Proof.
  intros Hnd0 w. assert (NoDup (savedIds w)) as Hnd by by apply NoDup_savedIds_run.
  split; [done|]. split.
  - intros sel now Hsel Hin. unfold handleSaveConcept. rewrite Hsel.
    destruct (List.find _ _) eqn:Hfind; [done|].
    by apply find_saved_None in Hfind.
  - intros sel now1 now2 Hsel w1 w2.
    assert (selectedConcept (state w1) = Some sel ∧ id sel ∈ savedIds w1) as [Hsel1 Hin1].
    { subst w1. unfold handleSaveConcept. rewrite Hsel.
      destruct (List.find _ _) eqn:Hfind; simpl.
      - split; [done|]. by eapply find_saved_Some.
      - split; [done|]. unfold savedIds. simpl. apply elem_of_cons. by left. }
    assert (NoDup (savedIds w1)) as Hnd1.
    { apply (NoDup_savedIds_step w (ClickSave now1) Hnd). }
    assert (w2 = emit (Alert AlertAlreadySaved) w1) as ->.
    { subst w2. unfold handleSaveConcept at 1. rewrite Hsel1.
      destruct (List.find _ _) eqn:Hfind; [done|].
      by apply find_saved_None in Hfind. }
    split; [done|]. simpl. by apply count_saved_NoDup.
Qed.

(** Concept A selected and saved twice, from the empty library. *)
Lemma library_has_no_duplicate_ids_witness :
  let w := run initialWorld [ClickConcept conceptA; ClickSave 10; ClickSave 20] in
  NoDup (savedIds w) ∧ savedIds w = [lit "A"].
Proof.
  intros w. split; [|reflexivity].
  apply (library_has_no_duplicate_ids initialWorld
           [ClickConcept conceptA; ClickSave 10; ClickSave 20]).
  simpl. constructor.
Defined.

(** C5.  A save of a concept whose id is not yet in the library puts
    the new entry, made of the concept, the time of saving and the
    current category, in front of the collection; so the collection
    lists the most recently saved first: saving X, then Y, then Z into
    the empty library gives Z, Y, X. *)
Theorem library_newest_first :
  (∀ w sel now, selectedConcept (state w) = Some sel → id sel ∉ savedIds w →
     savedConcepts (state (handleSaveConcept now w)) =
       {| concept := sel; savedAt := now; savedCategory := category (state w) |}
       :: savedConcepts (state w))
  ∧ (∀ X Y Z tx ty tz, id X ≠ id Y → id X ≠ id Z → id Y ≠ id Z →
       concept <$> savedConcepts (state (run initialWorld
         [ClickConcept X; ClickSave tx; ClickConcept Y; ClickSave ty;
          ClickConcept Z; ClickSave tz])) = [Z; Y; X]).
Proof.
  split.
  - intros w sel now Hsel Hnew. unfold handleSaveConcept. rewrite Hsel.
    destruct (List.find _ _) eqn:Hfind; [|done].
    by apply find_saved_Some in Hfind.
  - intros X Y Z tx ty tz Hxy Hxz Hyz. simpl.
    unfold handleSaveConcept, savedId; simpl.
    rewrite (bool_decide_eq_false_2 (id X = id Y)) by done. simpl.
    rewrite (bool_decide_eq_false_2 (id Y = id Z)) by done.
    by rewrite (bool_decide_eq_false_2 (id X = id Z)) by done.
Qed.

Lemma library_newest_first_witness :
  concept <$> savedConcepts (state (run initialWorld
    [ClickConcept conceptA; ClickSave 1; ClickConcept conceptB; ClickSave 2;
     ClickConcept conceptC; ClickSave 3])) = [conceptC; conceptB; conceptA].
Proof.
  destruct library_newest_first as [_ Horder].
  apply (Horder conceptA conceptB conceptC 1%Z 2%Z 3%Z); discriminate.
Defined.

End Library.

(** ** The voice preview *)

Section AudioPreview.
Import JS App Sample.
Implicit Types (w : World) (e : Event) (ctx : AudioContext).

Lemma sharedContext_update (f : State → State) w :
  (∀ st, audioContextRef (f st) = audioContextRef st) →
  sharedContext w → sharedContext (update f w).
Proof. intros Hf (? & ? & ? & ?). unfold sharedContext. simpl. by rewrite Hf. Qed.

Lemma sharedContext_emit (eff : Effect) w :
  (∀ ctx, eff ≠ NewAudioContext ctx) →
  (∀ ctx, eff = SourceStart ctx → audioContextRef (state w) = Some ctx) →
  sharedContext w → sharedContext (emit eff w).
Proof.
  intros Hnew Hstart (Hn & Hc & He & Hp).
  assert (createdContexts (emit eff w) = createdContexts w) as Hsame.
  { unfold createdContexts. simpl. rewrite omap_app. simpl.
    destruct eff; rewrite ?app_nil_r; try done. by destruct (Hnew ctx). }
  unfold sharedContext. rewrite Hsame. simpl. repeat split; try done.
  apply Forall_app. split; [done|]. by constructor.
Qed.

Lemma sharedContext_await (p : Pending) w :
  (∀ ctx, p = AwaitDecodeAudioData ctx → audioContextRef (state w) = Some ctx) →
  sharedContext w → sharedContext (await p w).
Proof.
  intros Hp (? & ? & ? & ?). unfold sharedContext. simpl. repeat split; try done.
  apply Forall_app. split; [done|]. by constructor.
Qed.

Lemma sharedContext_settle k w : sharedContext w → sharedContext (settle k w).
Proof.
  intros (? & ? & ? & ?). unfold sharedContext. simpl. repeat split; try done.
  by apply Forall_delete.
Qed.

(** The check-then-create statement keeps the invariant and yields the
    context held by the reference. *)
Lemma sharedContext_current w :
  sharedContext w →
  sharedContext (currentAudioContext w).1
  ∧ audioContextRef (state (currentAudioContext w).1) = Some (currentAudioContext w).2.
Proof.
  intros (Hn & Hc & He & Hp). unfold currentAudioContext.
  destruct (audioContextRef (state w)) as [ctx|] eqn:Href; simpl.
  - split; [|done]. unfold sharedContext. by rewrite Href.
  - split; [|done]. unfold sharedContext, createdContexts in *. simpl in *.
    rewrite omap_app, Hc. simpl. repeat split.
    + by rewrite Hn, Hc.
    + apply Forall_app. split; [|by constructor].
      eapply Forall_impl; [apply He|]. intros eff H ctx Hctx.
      by specialize (H ctx Hctx).
    + eapply Forall_impl; [apply Hp|]. intros p H ctx Hctx.
      by specialize (H ctx Hctx).
Qed.

Ltac frame :=
  repeat first
    [ assumption
    | apply sharedContext_update; [done|]
    | apply sharedContext_emit; [done|done|]
    | apply sharedContext_await; [done|]
    | apply sharedContext_settle ].

Lemma sharedContext_step w e : sharedContext w → sharedContext (step w e).
Proof.
  intros Hinv. destruct e; simpl; try (by frame).
  - unfold handleRecommend. destruct (missingInput _); by frame.
  - unfold handleGenerateAudio. destruct (selectedConcept _); by frame.
  - unfold copyCaptions. destruct (selectedConcept _); [|done].
    destruct (negb _); by frame.
  - unfold handleSaveConcept. destruct (selectedConcept _); [|done].
    destruct (List.find _ _); by frame.
  - unfold handleDeleteSaved. destruct confirmed; [|done].
    destruct (bool_decide _); by frame.
  - unfold clearLibrary. destruct confirmed; by frame.
  - unfold resume.
    destruct (pending w !! k) as [[| | |ctx]|] eqn:Hk; [| | | |done];
      destruct o; try done;
      try (unfold recommendResolved, recommendRejected, imageResolved,
             imageRejected, audioRejected; by frame).
    + unfold speechResolved. destruct (truthy _); [|by frame].
      pose proof (sharedContext_current (settle k w)
                    (sharedContext_settle k w Hinv)) as [Hinv1 Href].
      destruct (currentAudioContext (settle k w)) as [w1 ctx]. simpl in *.
      destruct decodes; unfold audioRejected; frame.
      apply sharedContext_await; [|done]. by intros ? [= <-].
    + unfold audioDecoded. apply sharedContext_update; [done|].
      apply sharedContext_emit; [done| |by frame].
      intros ? [= <-]. destruct Hinv as (_ & _ & _ & Hp).
      rewrite Forall_lookup in Hp. by apply (Hp k _ Hk).
Qed.

Lemma sharedContext_run w (trace : list Event) :
  sharedContext w → sharedContext (run w trace).
Proof.
  revert w. induction trace as [|e trace IH]; intros w Hinv; [done|].
  simpl. by apply IH, sharedContext_step.
Qed.

Lemma sharedContext_initial : sharedContext initialWorld.
Proof. unfold sharedContext. simpl. repeat split; constructor. Qed.

(** No handler resets the reference. *)
Lemma audioContextRef_step w e ctx :
  audioContextRef (state w) = Some ctx → audioContextRef (state (step w e)) = Some ctx.
Proof.
  intros Href. destruct e; simpl; try done.
  - unfold handleRecommend. by destruct (missingInput _).
  - unfold handleGenerateAudio. by destruct (selectedConcept _).
  - unfold copyCaptions. destruct (selectedConcept _); [|done]. by destruct (negb _).
  - unfold handleSaveConcept. destruct (selectedConcept _); [|done].
    by destruct (List.find _ _).
  - unfold handleDeleteSaved. destruct confirmed; [|done]. by destruct (bool_decide _).
  - unfold clearLibrary. by destruct confirmed.
  - unfold resume, speechResolved, currentAudioContext.
    repeat case_match; simplify_eq; simpl in *; try done; congruence.
Qed.

Lemma audioContextRef_run w (trace : list Event) ctx :
  audioContextRef (state w) = Some ctx → audioContextRef (state (run w trace)) = Some ctx.
Proof.
  revert w. induction trace as [|e trace IH]; intros w Href; [done|].
  simpl. by apply IH, audioContextRef_step.
Qed.

(** A context is constructed only when a speech result arrives while
    the reference is still empty. *)
Lemma createdContexts_step w e :
  createdContexts (step w e) = createdContexts w
  ∨ (∃ k data decodes, e = Settle k (Speech data decodes)
       ∧ truthy (default [] data) = true
       ∧ audioContextRef (state w) = None).
Proof.
  destruct e; try (by left).
  - left. simpl. unfold handleRecommend, createdContexts.
    destruct (missingInput _); simpl; by rewrite ?omap_app, ?app_nil_r.
  - left. unfold createdContexts. simpl. by rewrite omap_app, app_nil_r.
  - left. unfold createdContexts. simpl. by rewrite omap_app, app_nil_r.
  - left. simpl. unfold handleGenerateAudio, createdContexts.
    destruct (selectedConcept _); simpl; by rewrite ?omap_app, ?app_nil_r.
  - left. simpl. unfold copyCaptions, createdContexts.
    destruct (selectedConcept _); [|done].
    destruct (negb _); simpl; by rewrite ?omap_app, ?app_nil_r.
  - left. simpl. unfold handleSaveConcept, createdContexts.
    destruct (selectedConcept _); [|done].
    destruct (List.find _ _); simpl; by rewrite ?omap_app, ?app_nil_r.
  - left. simpl. unfold handleDeleteSaved. destruct confirmed; [|done].
    by destruct (bool_decide _).
  - left. simpl. unfold clearLibrary. by destruct confirmed.
  - simpl. unfold resume.
    destruct (pending w !! k) as [[| | |ctx]|]; [| | | |by left];
      destruct o; try (by left);
      try (left; unfold createdContexts; simpl;
           by rewrite ?omap_app, ?app_nil_r).
    unfold speechResolved.
    destruct (truthy (default [] data)) eqn:Hdata; [|by left].
    unfold currentAudioContext. simpl.
    destruct (audioContextRef (state w)) eqn:Href.
    + left. destruct decodes; unfold createdContexts; simpl;
        by rewrite ?omap_app, ?app_nil_r.
    + right. by exists k, data, decodes.
Qed.

(** C9.  In every run of the component at most one [AudioContext] is
    constructed, and only when a speech result arrives while the shared
    reference is still empty; every playback is started on the context
    held by the reference, which is the one that was constructed; and
    once the reference holds a context it holds the same one after any
    further events, during which no other context is constructed. *)
Theorem audio_context_created_once (trace : list Event) :
  let w := run initialWorld trace in
  (length (createdContexts w) ≤ 1)%nat
  ∧ contexts w = length (createdContexts w)
  ∧ (∀ e, createdContexts (step w e) = createdContexts w
          ∨ (∃ k data decodes, e = Settle k (Speech data decodes)
               ∧ truthy (default [] data) = true
               ∧ audioContextRef (state w) = None))
  ∧ Forall (λ ctx, audioContextRef (state w) = Some ctx ∧ createdContexts w = [ctx])
      (playbackContexts w)
  ∧ (∀ ctx more, audioContextRef (state w) = Some ctx →
       audioContextRef (state (run w more)) = Some ctx
       ∧ createdContexts (run w more) = [ctx]).
Proof.
  intros w.
  assert (sharedContext w) as Hinv by apply sharedContext_run, sharedContext_initial.
  pose proof Hinv as (Hn & Hc & He & _).
  split; [|split; [done|split; [apply createdContexts_step|split]]].
  - rewrite Hc. destruct (audioContextRef (state w)); simpl; lia.
  - unfold playbackContexts. clear -He Hc.
    induction He as [|eff effs Heff _ IH]; [constructor|].
    destruct eff; simpl; try done.
    constructor; [|done]. specialize (Heff ctx eq_refl). by rewrite Hc, Heff.
  - intros ctx more Href.
    pose proof (audioContextRef_run w more ctx Href) as Href'.
    split; [done|].
    destruct (sharedContext_run w more Hinv) as (_ & Hc' & _).
    by rewrite Hc', Href'.
Qed.

(** Two voice previews of concept A, both resolving and playing. *)
Lemma audio_context_created_once_witness :
  let first := [ClickConcept conceptA; ClickAudio;
                Settle 1 (Speech (Some (lit "UklGRg")) true); Settle 1 DecodedAudio] in
  let second := [ClickAudio; Settle 1 (Speech (Some (lit "UklGRg")) true);
                 Settle 1 DecodedAudio] in
  let ctx := {| ctxId := 0; sampleRate := 24000 |} in
  audioContextRef (state (run (run initialWorld first) second)) = Some ctx
  ∧ createdContexts (run (run initialWorld first) second) = [ctx].
Proof.
  intros first second ctx.
  destruct (audio_context_created_once first) as (_ & _ & _ & _ & Hkept).
  apply (Hkept ctx second). reflexivity.
Defined.

End AudioPreview.

(** ** Decoding 16-bit samples *)

Section Decode.
Import Audio.
Local Open Scope Z_scope.

Lemma int16_range (lo hi : byte) : -32768 ≤ int16 lo hi ≤ 32767.
Proof.
  unfold int16.
  pose proof (Byte.to_N_bounded lo). pose proof (Byte.to_N_bounded hi).
  case_match; lia.
Qed.

Lemma normalize_range (sample : Z) :
  -32768 ≤ sample ≤ 32767 → (-1 <= normalize sample <= 1)%Q.
Proof.
  intros Hs. unfold normalize, Qdiv, Qmult, Qinv, Qle. simpl. lia.
Qed.

Lemma samples_range (bytes : list byte) :
  Forall (λ z, -32768 ≤ z ≤ 32767) (samples bytes)
  ∧ ∀ b, Forall (λ z, -32768 ≤ z ≤ 32767) (samples (b :: bytes)).
Proof.
  induction bytes as [|hi rest [IH1 IH2]]; [by split; [|intros]; constructor|].
  split; [apply IH2|]. intros lo. simpl. constructor; [apply int16_range|done].
Qed.

Lemma nth_range (l : list Z) (i : nat) :
  Forall (λ z, -32768 ≤ z ≤ 32767) l → -32768 ≤ nth i l 0 ≤ 32767.
Proof.
  intros HF. destruct (nth_in_or_default i l 0) as [Hin| ->]; [|lia].
  rewrite Forall_forall in HF. by apply HF, list_elem_of_In.
Qed.

(** C7.  Every sample of the decoded waveform is a signed 16-bit
    little-endian sample of the input divided by 32768 and lies between
    -1 and 1; the byte pair FF 7F decodes to 32767/32768 and the pair
    00 80 to -1. *)
Theorem pcm_samples_normalized (bytes : list byte) (rate : N) (channelCount : nat) :
  Forall (Forall (λ v, -1 <= v <= 1)%Q)
    (channelData (pcmToWaveform bytes rate channelCount))
  ∧ (∀ channel i v,
       channelData (pcmToWaveform bytes rate channelCount) !! channel
         ≫= (λ data, data !! i) = Some v →
       v = (inject_Z (nth (i * channelCount + channel)%nat (samples bytes) 0%Z)
            / 32768)%Q)
  ∧ channelData (pcmToWaveform [xff; x7f] 24000 1) = [[(32767 # 32768)%Q]]
  ∧ (∃ v, channelData (pcmToWaveform [x00; x80] 24000 1) = [[v]] ∧ (v == -1)%Q).
Proof.
  split; [|split; [|split]].
  - simpl. apply Forall_fmap, Forall_forall. intros channel _.
    apply Forall_fmap, Forall_forall. intros i _.
    apply normalize_range, nth_range, samples_range.
  - intros channel i v. simpl. rewrite list_lookup_fmap.
    destruct (seq 0 channelCount !! channel) as [ch|] eqn:Hch; [|done].
    simpl. rewrite list_lookup_fmap.
    destruct (seq 0 _ !! i) as [j|] eqn:Hj; [|done].
    apply lookup_seq in Hch as [-> _]. apply lookup_seq in Hj as [-> _].
    by intros [= <-].
  - reflexivity.
  - eexists. split; reflexivity.
Qed.

(** One mono frame: the largest positive sample. *)
Lemma pcm_samples_normalized_witness :
  (32767 # 32768)%Q = (inject_Z (nth 0%nat (samples [xff; x7f]) 0%Z) / 32768)%Q.
Proof.
  destruct (pcm_samples_normalized [xff; x7f] 24000 1) as (_ & Hsample & _).
  apply (Hsample 0%nat 0%nat). reflexivity.
Defined.

End Decode.

(** ** More on the library: deleting, clearing, re-opening *)

Section LibraryOperations.
Import JS App View Sample.
Implicit Types (w : World) (e : Event) (l : list SavedConcept).

Lemma filter_sublist {A} (f : A → bool) (ls : list A) : List.filter f ls `sublist_of` ls.
Proof.
  induction ls as [|a ls IH]; [constructor|]. simpl.
  destruct (f a); [by apply sublist_skip | by apply sublist_cons].
Qed.

Lemma filter_split_length {A} (f : A → bool) (ls : list A) :
  (length (List.filter f ls) + length (List.filter (λ a, negb (f a)) ls))%nat = length ls.
Proof.
  induction ls as [|a ls IH]; [done|]. simpl. destruct (f a); simpl; lia.
Qed.

Lemma filter_other_ids l (target : JSString) :
  target ∉ savedId <$> l →
  List.filter (λ c, negb (bool_decide (savedId c = target))) l = l.
Proof.
  intros Hnew. apply filter_all, Forall_forall. intros sc Hin.
  apply negb_true_iff, bool_decide_eq_false. intros <-.
  apply Hnew, list_elem_of_fmap. eauto.
Qed.

Lemma deleted_library w (target : JSString) :
  savedConcepts (state (handleDeleteSaved target true w)) =
  List.filter (λ c, negb (bool_decide (savedId c = target))) (savedConcepts (state w)).
Proof. unfold handleDeleteSaved. by destruct (bool_decide _). Qed.

Lemma filter_removes_id l (target : JSString) :
  target ∉ savedId <$> List.filter (λ c, negb (bool_decide (savedId c = target))) l.
Proof.
  intros (sc & -> & Hin)%list_elem_of_fmap.
  apply list_elem_of_In, filter_In in Hin as [_ Hne].
  by apply negb_true_iff, bool_decide_eq_false in Hne.
Qed.

Lemma filter_removes_one l (target : JSString) :
  NoDup (savedId <$> l) → target ∈ savedId <$> l →
  S (length (List.filter (λ c, negb (bool_decide (savedId c = target))) l)) = length l.
Proof.
  intros Hnd Hin.
  pose proof (filter_split_length (λ c, bool_decide (savedId c = target)) l) as Hlen.
  rewrite (count_saved_NoDup _ _ Hnd Hin) in Hlen. simpl in Hlen. lia.
Qed.

(** X1.  Deleting.  A confirmed delete removes every entry with the given id
    and keeps the others in their order; in a library without duplicate
    ids that holds the id, exactly one entry goes.  An id that is not
    there, or a declined confirmation, leaves the library as it is. *)
Theorem delete_removes_the_entry (w : World) (target : JS.JSString) :
  let w' := handleDeleteSaved target true w in
  (target ∉ savedIds w')
  ∧ savedConcepts (state w') `sublist_of` savedConcepts (state w)
  ∧ (∀ sc, sc ∈ savedConcepts (state w) → savedId sc ≠ target →
           sc ∈ savedConcepts (state w'))
  ∧ (NoDup (savedIds w) → target ∈ savedIds w →
     S (length (savedConcepts (state w'))) = length (savedConcepts (state w)))
  ∧ (target ∉ savedIds w → savedConcepts (state w') = savedConcepts (state w))
  ∧ handleDeleteSaved target false w = w.
Proof.
  intros w'. subst w'. unfold savedIds. rewrite deleted_library.
  split; [apply filter_removes_id|]. split; [apply filter_sublist|]. split; [|split].
  - intros sc Hin Hne. apply list_elem_of_In, filter_In.
    split; [by apply list_elem_of_In|]. by apply negb_true_iff, bool_decide_eq_false.
  - apply filter_removes_one.
  - split; [apply filter_other_ids | done].
Qed.

(** Concepts A and B saved, then A deleted. *)
Lemma delete_removes_the_entry_witness :
  let w := run initialWorld
             [ClickConcept conceptA; ClickSave 1; ClickConcept conceptB; ClickSave 2] in
  S (length (savedConcepts (state (handleDeleteSaved (lit "A") true w)))) =
    length (savedConcepts (state w))
  ∧ savedConcepts (state (handleDeleteSaved (lit "C") true w)) = savedConcepts (state w).
Proof.
  intros w.
  destruct (delete_removes_the_entry w (lit "A")) as (_ & _ & _ & Hone & _).
  destruct (delete_removes_the_entry w (lit "C")) as (_ & _ & _ & _ & Habsent & _).
  split.
  - apply Hone; apply (bool_decide_unpack _); vm_compute; exact I.
  - apply Habsent. apply (bool_decide_unpack _). vm_compute. exact I.
Defined.

(** X2.  Deleting and the selection.  A confirmed delete of the id of the
    selected concept clears the selection and the preview image, after
    which the save, audio and copy buttons are gone and their handlers do
    nothing; a delete of any other id leaves selection and preview as
    they were. *)
Theorem delete_clears_matching_selection (w : World) (target : JS.JSString) :
  let w' := handleDeleteSaved target true w in
  (∀ sel, selectedConcept (state w) = Some sel → id sel = target →
     selectedConcept (state w') = None
     ∧ previewImage (state w') = None
     ∧ previewPane (state w') = Placeholder
     ∧ (∀ now, handleSaveConcept now w' = w')
     ∧ handleGenerateAudio w' = w'
     ∧ copyCaptions w' = w')
  ∧ ((∀ sel, selectedConcept (state w) = Some sel → id sel ≠ target) →
     selectedConcept (state w') = selectedConcept (state w)
     ∧ previewImage (state w') = previewImage (state w)).
Proof.
  intros w'. subst w'. unfold handleDeleteSaved. split.
  - intros sel Hsel <-. rewrite Hsel. simpl.
    rewrite bool_decide_eq_true_2 by done. done.
  - intros Hother. rewrite bool_decide_eq_false_2; [done|].
    destruct (selectedConcept (state w)) as [sel|]; [|done].
    intros [= Heq]. by apply (Hother sel).
Qed.

(** A and B saved, B still selected: deleting B clears the selection,
    deleting A does not. *)
Lemma delete_clears_matching_selection_witness :
  let w := run initialWorld
             [ClickConcept conceptA; ClickSave 1; ClickConcept conceptB; ClickSave 2] in
  selectedConcept (state (handleDeleteSaved (lit "B") true w)) = None
  ∧ selectedConcept (state (handleDeleteSaved (lit "A") true w)) = Some conceptB.
Proof.
  intros w.
  destruct (delete_clears_matching_selection w (lit "B")) as [Hsame _].
  destruct (delete_clears_matching_selection w (lit "A")) as [_ Hother].
  split.
  - apply (Hsame conceptB); reflexivity.
  - apply Hother. intros sel [= <-]. discriminate.
Defined.

(** X3.  Save, then delete.  Saving the selected concept under an id that
    the library does not hold and then deleting that id gives back the
    library as it was; the selection is cleared on the way. *)
Theorem save_then_delete_restores_library
    (w : World) (sel : ShortsConcept) (now : Z) :
  selectedConcept (state w) = Some sel →
  id sel ∉ savedIds w →
  let w' := handleDeleteSaved (id sel) true (handleSaveConcept now w) in
  savedConcepts (state w') = savedConcepts (state w)
  ∧ selectedConcept (state w') = None.
Proof.
  intros Hsel Hnew w'. subst w'.
  unfold handleSaveConcept. rewrite Hsel.
  destruct (List.find _ _) eqn:Hfind; [by apply find_saved_Some in Hfind|].
  unfold handleDeleteSaved. simpl. rewrite Hsel. simpl.
  rewrite !bool_decide_eq_true_2 by done. simpl.
  split; [|done]. by apply filter_other_ids.
Qed.

Lemma save_then_delete_restores_library_witness :
  let w := run initialWorld [ClickConcept conceptA; ClickSave 1; ClickConcept conceptB] in
  savedConcepts (state (handleDeleteSaved (lit "B") true (handleSaveConcept 2 w)))
    = savedConcepts (state w).
Proof.
  intros w. apply (save_then_delete_restores_library w conceptB 2%Z).
  - reflexivity.
  - apply (bool_decide_unpack _). vm_compute. exact I.
Defined.

(** X4.  The library changes only through its own three actions: every other
    event, and in particular every settlement of a request, leaves it
    as it is. *)
Theorem library_changed_only_by_library_actions (w : World) (e : Event) :
  (∀ now, e ≠ ClickSave now) →
  (∀ target, e ≠ ClickDelete target true) →
  e ≠ ClickClear true →
  savedConcepts (state (step w e)) = savedConcepts (state w).
Proof.
  intros Hsave Hdelete Hclear. destruct e; simpl; try done.
  - unfold handleRecommend. by destruct (missingInput _).
  - unfold handleGenerateAudio. by destruct (selectedConcept _).
  - unfold copyCaptions. destruct (selectedConcept _); [|done]. by destruct (negb _).
  - by destruct (Hsave now).
  - destruct confirmed; [by destruct (Hdelete target)|done].
  - by destruct confirmed.
  - unfold resume, speechResolved, currentAudioContext.
    repeat case_match; simplify_eq; done.
Qed.

(** A recommendation result arriving while A is saved. *)
Lemma library_changed_only_by_library_actions_witness :
  let w := run initialWorld [ClickConcept conceptA; ClickSave 1;
                             SetKeywords (lit "calm"); ClickRecommend] in
  savedConcepts (state (step w (Settle 1 (Recommendations [conceptB]))))
    = savedConcepts (state w).
Proof.
  intros w.
  apply (library_changed_only_by_library_actions w (Settle 1 (Recommendations [conceptB])));
    discriminate.
Defined.

(** X5.  Clearing.  A confirmed clear empties the library and touches
    nothing else: unlike a delete it keeps the selection and the
    preview, even when the selected concept came from the library, so
    the selected concept can be saved again and is then the only
    entry. *)
Theorem clear_keeps_selection (w : World) (sel : ShortsConcept) (now : Z) :
  selectedConcept (state w) = Some sel →
  let w' := clearLibrary true w in
  savedConcepts (state w') = []
  ∧ selectedConcept (state w') = Some sel
  ∧ previewImage (state w') = previewImage (state w)
  ∧ effects w' = effects w
  ∧ savedConcepts (state (handleSaveConcept now w')) =
      [{| concept := sel; savedAt := now; savedCategory := category (state w) |}]
  ∧ clearLibrary false w = w.
Proof.
  intros Hsel w'. subst w'. unfold handleSaveConcept. simpl. by rewrite Hsel.
Qed.

Lemma clear_keeps_selection_witness :
  let w := run initialWorld [ClickConcept conceptA; ClickSave 1; ClickConcept conceptB;
                             ClickSave 2; ToggleShowSaved] in
  savedConcepts (state (clearLibrary true w)) = []
  ∧ selectedConcept (state (clearLibrary true w)) = Some conceptB.
Proof.
  intros w.
  destruct (clear_keeps_selection w conceptB 3%Z eq_refl) as (Hempty & Hsel & _).
  by split.
Defined.

Lemma find_saved_present l (i : JSString) :
  i ∈ savedId <$> l →
  is_Some (List.find (λ c, bool_decide (savedId c = i)) l).
Proof.
  intros Hin. destruct (List.find _ _) eqn:Hfind; [eauto|].
  by apply find_saved_None in Hfind.
Qed.

(** X6.  Re-opening.  Clicking an entry of the library selects its concept
    and switches the category to the one it was saved under; while the
    entry is in the library the save button is drawn filled and a save
    click only gives the already-saved notice. *)
Theorem opened_entry_is_already_saved (w : World) (sc : SavedConcept) :
  sc ∈ savedConcepts (state w) →
  let w' := openSaved sc w in
  selectedConcept (state w') = Some (concept sc)
  ∧ category (state w') = savedCategory sc
  ∧ savedConcepts (state w') = savedConcepts (state w)
  ∧ saveButtonFilled (state w') = Some true
  ∧ (∀ now, handleSaveConcept now w' = emit (Alert AlertAlreadySaved) w').
Proof.
  intros Hin w'.
  assert (is_Some (List.find (λ c, bool_decide (savedId c = id (concept sc)))
                     (savedConcepts (state w)))) as [found Hfound].
  { apply find_saved_present, list_elem_of_fmap. by exists sc. }
  subst w'. unfold saveButtonFilled, handleSaveConcept. simpl.
  by rewrite Hfound.
Qed.

Lemma opened_entry_is_already_saved_witness :
  let entry := {| concept := conceptA; savedAt := 1; savedCategory := QUOTES |} in
  let w := run initialWorld [ClickConcept conceptA; ClickSave 1; ToggleShowSaved] in
  saveButtonFilled (state (openSaved entry w)) = Some true.
Proof.
  intros entry w. apply (opened_entry_is_already_saved w entry).
  apply (bool_decide_unpack _). vm_compute. exact I.
Defined.

(** X7.  The voice of a re-opened entry.  The voice preview of a concept
    opened from the library reads its hook with the voice of the
    category it was saved under (Kore for QUOTES, Puck for
    SELF_IMPROVEMENT), whatever the category was before the click. *)
Theorem opened_entry_voice (w : World) (sc : SavedConcept) :
  effects (handleGenerateAudio (openSaved sc w)) =
    effects w
    ++ [GenerateBackgroundImage (imagePrompt (concept sc)) (visualMode (state w));
        GenerateSpeech (hook (concept sc))
          (match savedCategory sc with QUOTES => Kore | SELF_IMPROVEMENT => Puck end)]
  ∧ audioLoading (state (handleGenerateAudio (openSaved sc w))) = true.
Proof.
  unfold handleGenerateAudio. simpl. rewrite <- app_assoc. by destruct (savedCategory sc).
Qed.

(** X8.  The save button and the save handler agree: the button is drawn
    filled exactly when a click on it gives the already-saved notice;
    when it is drawn hollow a click saves and the button becomes
    filled. *)
Theorem save_button_reflects_library (w : World) (now : Z) :
  (saveButtonFilled (state w) = Some true ↔
     effects (handleSaveConcept now w) = effects w ++ [Alert AlertAlreadySaved])
  ∧ (saveButtonFilled (state w) = Some false ↔
     effects (handleSaveConcept now w) = effects w ++ [Alert AlertSaved])
  ∧ (saveButtonFilled (state w) = Some false →
     saveButtonFilled (state (handleSaveConcept now w)) = Some true
     ∧ length (savedConcepts (state (handleSaveConcept now w))) =
         S (length (savedConcepts (state w))))
  ∧ (saveButtonFilled (state w) = Some true →
     savedConcepts (state (handleSaveConcept now w)) = savedConcepts (state w)).
Proof.
  unfold saveButtonFilled, handleSaveConcept.
  destruct (selectedConcept (state w)) as [sel|] eqn:Hsel.
  - destruct (List.find _ _) eqn:Hfind; simpl.
    + repeat split; try done.
      intros Heq%app_inv_head. discriminate.
    + rewrite Hsel. simpl. rewrite bool_decide_eq_true_2 by done.
      repeat split; try done.
      intros Heq%app_inv_head. discriminate.
  - repeat split; try done.
    + intros Heq%(f_equal length). rewrite length_app in Heq. simpl in Heq. lia.
    + intros Heq%(f_equal length). rewrite length_app in Heq. simpl in Heq. lia.
Qed.

Lemma save_button_reflects_library_witness :
  let w := run initialWorld [ClickConcept conceptA] in
  saveButtonFilled (state (handleSaveConcept 1 w)) = Some true
  ∧ length (savedConcepts (state (handleSaveConcept 1 w))) = 1%nat.
Proof.
  intros w.
  destruct (save_button_reflects_library w 1%Z) as (_ & _ & Hhollow & _).
  apply Hhollow. reflexivity.
Defined.

End LibraryOperations.

(** ** Loading flags and outstanding requests *)

Section LoadingFlags.
Import JS App View Sample.
Implicit Types (w : World) (e : Event) (kind : Pending → bool).

Lemma filter_delete_length kind (l : list Pending) k p :
  l !! k = Some p →
  (length (List.filter kind (delete k l)) + (if kind p then 1 else 0))%nat
  = length (List.filter kind l).
Proof.
  intros Hk. rewrite delete_take_drop.
  rewrite <- (take_drop_middle l k p Hk) at 3.
  rewrite !List.filter_app, !length_app. simpl. destruct (kind p); simpl; lia.
Qed.

Lemma inFlight_settle kind k w p :
  pending w !! k = Some p →
  (inFlight kind (settle k w) + (if kind p then 1 else 0))%nat = inFlight kind w.
Proof. apply filter_delete_length. Qed.

Lemma inFlight_await kind p w :
  inFlight kind (await p w) = (inFlight kind w + (if kind p then 1 else 0))%nat.
Proof.
  unfold inFlight. simpl. rewrite List.filter_app, length_app. simpl.
  by destruct (kind p).
Qed.

Lemma inFlight_update kind f w : inFlight kind (update f w) = inFlight kind w.
Proof. done. Qed.

Lemma inFlight_emit kind eff w : inFlight kind (emit eff w) = inFlight kind w.
Proof. done. Qed.

(** The check-then-create statement touches neither the suspended
    handlers nor the loading flags. *)
Lemma currentAudioContext_frame w :
  let w1 := (currentAudioContext w).1 in
  pending w1 = pending w
  ∧ loading (state w1) = loading (state w)
  ∧ imageLoading (state w1) = imageLoading (state w)
  ∧ audioLoading (state w1) = audioLoading (state w)
  ∧ concepts (state w1) = concepts (state w).
Proof. unfold currentAudioContext. by destruct (audioContextRef (state w)). Qed.

Lemma currentAudioContext_inFlight kind w :
  inFlight kind (currentAudioContext w).1 = inFlight kind w.
Proof.
  unfold inFlight. by destruct (currentAudioContext_frame w) as [-> _].
Qed.

Local Arguments inFlight : simpl never.

Ltac flags :=
  unfold flagsBacked in *;
  repeat first [ rewrite inFlight_await | rewrite inFlight_emit
               | rewrite inFlight_update | rewrite currentAudioContext_inFlight ];
  simpl;
  intuition (try discriminate; try lia; auto).

Lemma flagsBacked_step w e : flagsBacked w → flagsBacked (step w e).
Proof.
  intros Hinv. destruct e; simpl; try (by flags).
  - unfold handleRecommend. destruct (missingInput _); flags.
  - unfold handleSelectConcept. flags.
  - unfold openSaved, handleSelectConcept. flags.
  - unfold handleGenerateAudio. destruct (selectedConcept _); flags.
  - unfold copyCaptions. destruct (selectedConcept _); [|done].
    destruct (negb _); flags.
  - unfold handleSaveConcept. destruct (selectedConcept _); [|done].
    destruct (List.find _ _); flags.
  - unfold handleDeleteSaved. destruct confirmed; [|done].
    destruct (bool_decide _); flags.
  - unfold clearLibrary. destruct confirmed; flags.
  - unfold resume. destruct (pending w !! k) as [p|] eqn:Hk; [|done].
    pose proof (inFlight_settle awaitsRecommendations k w p Hk) as Hr.
    pose proof (inFlight_settle awaitsImage k w p Hk) as Hi.
    pose proof (inFlight_settle awaitsAudio k w p Hk) as Ha.
    destruct p, o; simpl in *; try done;
      try (cbv beta delta [recommendResolved recommendRejected imageResolved
             imageRejected audioRejected audioDecoded]; by flags).
    unfold speechResolved. destruct (truthy _); [|by flags].
    pose proof (currentAudioContext_frame (settle k w)) as (_ & Hl & Hil & Hal & Hc).
    pose proof (currentAudioContext_inFlight awaitsRecommendations (settle k w)) as Hr1.
    pose proof (currentAudioContext_inFlight awaitsImage (settle k w)) as Hi1.
    pose proof (currentAudioContext_inFlight awaitsAudio (settle k w)) as Ha1.
    destruct (currentAudioContext (settle k w)) as [w1 ctx]. simpl in *.
    destruct decodes; unfold audioRejected, flagsBacked in *;
      repeat first [ rewrite inFlight_await | rewrite inFlight_emit
                   | rewrite inFlight_update ];
      simpl; rewrite ?Hl, ?Hil, ?Hal, ?Hc, ?Hr1, ?Hi1, ?Ha1;
      intuition (try discriminate; try lia; auto).
Qed.

Lemma flagsBacked_run w (trace : list Event) : flagsBacked w → flagsBacked (run w trace).
Proof.
  revert w. induction trace as [|e trace IH]; intros w Hinv; [done|].
  simpl. by apply IH, flagsBacked_step.
Qed.

(** X9.  No spinner without a request.  In every run, whenever one of
    the three loading flags is set, a handler is still suspended on the
    corresponding request (for [audioLoading]: on the speech request or
    on the decoding that follows it); and while a recommendation is
    loading the list of concepts is empty.  The settlement of a
    recommendation request or of an image request clears its flag.  The
    settlement of a speech request clears [audioLoading], except when
    it brings data that decodes: then the handler suspends again, on
    [decodeAudioData], with the flag as it was, and the settlement of
    that call clears it. *)
Theorem loading_flags_are_backed (trace : list Event) :
  let w := run initialWorld trace in
  (loading (state w) = true → (1 ≤ inFlight awaitsRecommendations w)%nat)
  ∧ (imageLoading (state w) = true → (1 ≤ inFlight awaitsImage w)%nat)
  ∧ (audioLoading (state w) = true → (1 ≤ inFlight awaitsAudio w)%nat)
  ∧ (loading (state w) = true → concepts (state w) = [])
  ∧ (∀ k o, pending w !! k = Some AwaitRecommendations →
       o = Rejects ∨ (∃ result, o = Recommendations result) →
       loading (state (step w (Settle k o))) = false)
  ∧ (∀ k o concept, pending w !! k = Some (AwaitBackgroundImage concept) →
       o = Rejects ∨ (∃ img, o = Image img) →
       imageLoading (state (step w (Settle k o))) = false)
  ∧ (∀ k, pending w !! k = Some AwaitSpeech →
       audioLoading (state (step w (Settle k Rejects))) = false
       ∧ (∀ data decodes,
            truthy (default [] data) && decodes = false →
            audioLoading (state (step w (Settle k (Speech data decodes)))) = false)
       ∧ (∀ data,
            truthy (default [] data) = true →
            let w' := step w (Settle k (Speech data true)) in
            audioLoading (state w') = audioLoading (state w)
            ∧ ∃ ctx, audioContextRef (state w') = Some ctx
                     ∧ pending w' = delete k (pending w) ++ [AwaitDecodeAudioData ctx]))
  ∧ (∀ k o ctx, pending w !! k = Some (AwaitDecodeAudioData ctx) →
       o = Rejects ∨ o = DecodedAudio →
       audioLoading (state (step w (Settle k o))) = false).
Proof.
  intros w.
  assert (flagsBacked w) as (Hrec & Himg & Haud & Hlist)
    by (apply flagsBacked_run; by repeat split).
  do 4 (split; [done|]). clear. split; [|split; [|split]].
  - intros k o Hk [-> | [result ->]]; simpl; unfold resume; by rewrite Hk.
  - intros k o concept Hk [-> | [img ->]]; simpl; unfold resume; by rewrite Hk.
  - intros k Hk. simpl. unfold resume. rewrite Hk. split; [done|]. split.
    + intros data decodes Hno. unfold speechResolved.
      destruct (truthy (default [] data)); [|done].
      simpl in Hno. subst decodes. unfold currentAudioContext.
      by destruct (audioContextRef (state (settle k w))).
    + intros data Hdata. unfold speechResolved. rewrite Hdata.
      unfold currentAudioContext. simpl.
      destruct (audioContextRef (state w)) as [ctx|] eqn:Href; simpl;
        rewrite ?Href; eauto.
  - intros k o ctx Hk [-> | ->]; simpl; unfold resume; by rewrite Hk.
Qed.

(** A concept selected while a recommendation is loading: both flags
    are backed.  A voice preview whose data decodes: the flag stays set
    after the speech result and is cleared after the decoding. *)
Lemma loading_flags_are_backed_witness :
  let w := run initialWorld [SetKeywords (lit "calm"); ClickRecommend;
                             ClickConcept conceptA] in
  let v := run initialWorld [ClickConcept conceptA; ClickAudio] in
  (1 ≤ inFlight awaitsRecommendations w)%nat
  ∧ (1 ≤ inFlight awaitsImage w)%nat
  ∧ audioLoading (state (step v (Settle 1 (Speech (Some (lit "UklGRg")) true))))
      = audioLoading (state v)
  ∧ audioLoading
      (state (step (run v [Settle 1 (Speech (Some (lit "UklGRg")) true)])
                (Settle 1 DecodedAudio))) = false.
Proof.
  intros w v.
  destruct (loading_flags_are_backed
              [SetKeywords (lit "calm"); ClickRecommend; ClickConcept conceptA])
    as (Hrec & Himg & _).
  destruct (loading_flags_are_backed [ClickConcept conceptA; ClickAudio])
    as (_ & _ & _ & _ & _ & _ & Hspeech & _).
  destruct (loading_flags_are_backed
              [ClickConcept conceptA; ClickAudio;
               Settle 1 (Speech (Some (lit "UklGRg")) true)])
    as (_ & _ & _ & _ & _ & _ & _ & Hdecode).
  split; [apply Hrec; reflexivity|]. split; [apply Himg; reflexivity|]. split.
  - destruct (Hspeech 1%nat eq_refl) as (_ & _ & Hagain).
    apply (Hagain (Some (lit "UklGRg"))). reflexivity.
  - apply (Hdecode 1%nat DecodedAudio {| ctxId := 0; sampleRate := 24000 |});
      [reflexivity | by right].
Defined.

Ltac serial :=
  unfold oneAtATime in *;
  repeat first [ rewrite inFlight_await | rewrite inFlight_emit
               | rewrite inFlight_update | rewrite currentAudioContext_inFlight ];
  simpl in *;
  repeat match goal with H : ?b = _ |- context [if ?b then _ else _] => rewrite H end;
  simpl; first [ discriminate | lia | (split; lia) ].

Lemma oneAtATime_step w e :
  oneAtATime w → enabled w e = true → oneAtATime (step w e).
Proof.
  intros [Hrec Haud] Hen.
  destruct (loading (state w)) eqn:Hl, (audioLoading (state w)) eqn:Ha;
    destruct e; simpl in Hen; rewrite ?Hl, ?Ha, ?andb_false_r in Hen;
    try discriminate; simpl;
    try (by unfold oneAtATime; simpl; rewrite ?Hl, ?Ha);
    try (unfold handleRecommend; destruct (missingInput _); by serial);
    try (unfold handleSelectConcept; by serial);
    try (unfold openSaved, handleSelectConcept; by serial);
    try (unfold handleGenerateAudio; destruct (selectedConcept _); by serial);
    try (unfold copyCaptions; destruct (selectedConcept _); [|by serial];
         destruct (negb _); by serial);
    try (unfold handleSaveConcept; destruct (selectedConcept _); [|by serial];
         destruct (List.find _ _); by serial);
    try (clear Hen; unfold handleDeleteSaved; destruct confirmed; [|by serial];
         destruct (bool_decide (_ = Some target)); by serial);
    try (unfold clearLibrary; destruct confirmed; by serial).
  all: unfold resume; destruct (pending w !! k) as [p|] eqn:Hk; [|by serial].
  all: pose proof (inFlight_settle awaitsRecommendations k w p Hk) as Hr.
  all: pose proof (inFlight_settle awaitsAudio k w p Hk) as Hu.
  all: destruct p, o; simpl in Hr, Hu; try (by serial);
    try (cbv beta delta [recommendResolved recommendRejected imageResolved
           imageRejected audioRejected audioDecoded]; by serial).
  all: unfold speechResolved; destruct (truthy _); [|by serial].
  all: pose proof (currentAudioContext_frame (settle k w)) as (_ & Hl1 & _ & Ha1 & _).
  all: pose proof (currentAudioContext_inFlight awaitsRecommendations (settle k w)) as Hr1.
  all: pose proof (currentAudioContext_inFlight awaitsAudio (settle k w)) as Hu1.
  all: destruct (currentAudioContext (settle k w)) as [w1 ctx]; simpl in *.
  all: destruct decodes; unfold audioRejected, oneAtATime in *;
    repeat first [ rewrite inFlight_await | rewrite inFlight_emit
                 | rewrite inFlight_update ];
    simpl; rewrite ?Hl1, ?Ha1, ?Hr1, ?Hu1, ?Hl, ?Ha; simpl; split; lia.
Qed.

Lemma oneAtATime_run w (trace : list Event) :
  oneAtATime w → possible w trace = true → oneAtATime (run w trace).
Proof.
  revert w. induction trace as [|e trace IH]; intros w Hinv Hp; [done|].
  simpl in *. apply andb_true_iff in Hp as [He Hp].
  apply IH; [by apply oneAtATime_step | done].
Qed.

(** X10.  One recommendation at a time.  In every run that the interface
    allows, where the button of [handleRecommend] is disabled while
    [loading] is set, at most one recommendation request is
    outstanding, and [loading] is set exactly while it is. *)
Theorem one_recommendation_at_a_time (trace : list Event) :
  possible initialWorld trace = true →
  let w := run initialWorld trace in
  (inFlight awaitsRecommendations w ≤ 1)%nat
  ∧ (loading (state w) = true ↔ inFlight awaitsRecommendations w = 1%nat).
Proof.
  intros Hp w.
  destruct (oneAtATime_run initialWorld trace) as [Hrec _]; [done|done|].
  fold w in Hrec. rewrite Hrec.
  destruct (loading (state w)); (split; [lia|]); split; (done || lia).
Qed.

(** A request is made; the button is disabled until it settles. *)
Lemma one_recommendation_at_a_time_witness :
  let w := run initialWorld [SetKeywords (lit "calm"); ClickRecommend;
                             Settle 0 (Recommendations [conceptA; conceptB]);
                             ClickConcept conceptA; ClickRecommend] in
  (inFlight awaitsRecommendations w ≤ 1)%nat.
Proof.
  intros w.
  apply (one_recommendation_at_a_time
           [SetKeywords (lit "calm"); ClickRecommend;
            Settle 0 (Recommendations [conceptA; conceptB]);
            ClickConcept conceptA; ClickRecommend]).
  by vm_compute.
Defined.

(** X11.  One voice preview at a time.  In every run that the interface
    allows, where the audio button is disabled while [audioLoading] is
    set, at most one voice preview is between its click and its
    playback or failure, and [audioLoading] is set exactly during that
    time. *)
Theorem one_voice_preview_at_a_time (trace : list Event) :
  possible initialWorld trace = true →
  let w := run initialWorld trace in
  (inFlight awaitsAudio w ≤ 1)%nat
  ∧ (audioLoading (state w) = true ↔ inFlight awaitsAudio w = 1%nat).
Proof.
  intros Hp w.
  destruct (oneAtATime_run initialWorld trace) as [_ Haud]; [done|done|].
  fold w in Haud. rewrite Haud.
  destruct (audioLoading (state w)); (split; [lia|]); split; (done || lia).
Qed.

Lemma one_voice_preview_at_a_time_witness :
  let w := run initialWorld [SetKeywords (lit "calm"); ClickRecommend;
                             Settle 0 (Recommendations [conceptA]);
                             ClickConcept conceptA; ClickAudio;
                             Settle 1 (Speech (Some (lit "UklGRg")) true)] in
  (inFlight awaitsAudio w ≤ 1)%nat.
Proof.
  intros w.
  apply (one_voice_preview_at_a_time
           [SetKeywords (lit "calm"); ClickRecommend;
            Settle 0 (Recommendations [conceptA]);
            ClickConcept conceptA; ClickAudio;
            Settle 1 (Speech (Some (lit "UklGRg")) true)]).
  by vm_compute.
Defined.

End LoadingFlags.

(** ** Failures of the enrichment requests *)

Section EnrichmentFailures.
Import JS App View Sample.
Implicit Types (w : World) (c : ShortsConcept).

Lemma lookup_new_pending w (p : Pending) :
  (pending w ++ [p]) !! length (pending w) = Some p.
Proof. by rewrite lookup_app_r, Nat.sub_diag. Qed.

Lemma delete_new_pending w (p : Pending) :
  delete (length (pending w)) (pending w ++ [p]) = pending w.
Proof.
  rewrite delete_take_drop, take_app_length, drop_ge; [by rewrite app_nil_r|].
  rewrite length_app. simpl. lia.
Qed.

(** X12.  A failed image request.  When the image request of a selection is
    rejected, the failure is logged and nothing is shown to the user:
    no alert, the selection stays, the spinner goes and the preview
    shows the empty background; the suspended handler is gone. *)
Theorem image_failure_leaves_empty_preview (w : World) (c : ShortsConcept) :
  let w' := run w [ClickConcept c; Settle (length (pending w)) Rejects] in
  effects w' =
    effects w ++ [GenerateBackgroundImage (imagePrompt c) (visualMode (state w));
                  ConsoleError InSelectConcept]
  ∧ selectedConcept (state w') = Some c
  ∧ previewPane (state w') = EmptyBackground
  ∧ savedConcepts (state w') = savedConcepts (state w)
  ∧ pending w' = pending w.
Proof.
  simpl. unfold resume, handleSelectConcept. simpl.
  rewrite lookup_new_pending. simpl. rewrite delete_new_pending.
  by rewrite <- app_assoc.
Qed.

(** X13.  A voice preview without audio.  When the speech request resolves
    with no data (or an empty string), the handler ends silently: no
    alert, no log entry, no [AudioContext], no playback; only the
    loading flag is cleared. *)
Theorem empty_speech_is_silent (w : World) (sel : ShortsConcept) (decodes : bool)
    (data : option JS.JSString) :
  selectedConcept (state w) = Some sel →
  data = None ∨ data = Some [] →
  let w' := run w [ClickAudio; Settle (length (pending w)) (Speech data decodes)] in
  effects w' = effects w ++ [GenerateSpeech (hook sel) (voiceFor (category (state w)))]
  ∧ audioLoading (state w') = false
  ∧ audioContextRef (state w') = audioContextRef (state w)
  ∧ contexts w' = contexts w
  ∧ pending w' = pending w.
Proof.
  intros Hsel Hdata. simpl. unfold handleGenerateAudio. rewrite Hsel.
  unfold resume. simpl. rewrite lookup_new_pending.
  unfold speechResolved.
  destruct Hdata as [-> | ->]; simpl; by rewrite delete_new_pending.
Qed.

Lemma empty_speech_is_silent_witness :
  let w := run initialWorld [ClickConcept conceptA] in
  effects (run w [ClickAudio; Settle 1 (Speech None true)]) =
    effects w ++ [GenerateSpeech (lit "hook") Kore].
Proof.
  intros w.
  apply (empty_speech_is_silent w conceptA true None); [reflexivity | by left].
Defined.

(** X14.  A failed voice preview.  When the speech request is rejected, the
    failure is logged and reported with one alert, the loading flag is
    cleared, and no [AudioContext] has been constructed for it.  When
    the data arrives but cannot be decoded, the outcome for the user is
    the same, but the shared context has already been constructed (if
    there was none) before the decoding was attempted. *)
Theorem audio_failure_is_reported (w : World) (sel : ShortsConcept)
    (data : JS.JSString) :
  selectedConcept (state w) = Some sel →
  let request := GenerateSpeech (hook sel) (voiceFor (category (state w))) in
  let rejected := run w [ClickAudio; Settle (length (pending w)) Rejects] in
  let undecodable :=
    run w [ClickAudio; Settle (length (pending w)) (Speech (Some data) false)] in
  (effects rejected =
     effects w ++ [request; ConsoleError InGenerateAudio; Alert AlertAudioFailed]
   ∧ audioLoading (state rejected) = false
   ∧ audioContextRef (state rejected) = audioContextRef (state w)
   ∧ contexts rejected = contexts w)
  ∧ (data ≠ [] → audioContextRef (state w) = None →
     effects undecodable =
       effects w ++ [request;
                     NewAudioContext {| ctxId := contexts w; sampleRate := 24000 |};
                     ConsoleError InGenerateAudio; Alert AlertAudioFailed]
     ∧ audioLoading (state undecodable) = false
     ∧ audioContextRef (state undecodable) =
         Some {| ctxId := contexts w; sampleRate := 24000 |}
     ∧ playbackContexts undecodable = playbackContexts w).
Proof.
  intros Hsel request rejected undecodable.
  subst request rejected undecodable. simpl.
  unfold handleGenerateAudio. rewrite Hsel. unfold resume. simpl.
  rewrite lookup_new_pending. simpl. split.
  - by rewrite <- !app_assoc.
  - intros Hdata Href. unfold speechResolved, currentAudioContext. simpl.
    destruct data as [|d data]; [done|]. simpl. rewrite Href. simpl.
    rewrite <- !app_assoc. repeat split.
    unfold playbackContexts. simpl. by rewrite !omap_app, !app_nil_r.
Qed.

Lemma audio_failure_is_reported_witness :
  let w := run initialWorld [ClickConcept conceptA] in
  audioContextRef
    (state (run w [ClickAudio; Settle 1 (Speech (Some (lit "%%%")) false)]))
    = Some {| ctxId := 0; sampleRate := 24000 |}
  ∧ audioContextRef (state (run w [ClickAudio; Settle 1 Rejects])) = None.
Proof.
  intros w.
  destruct (audio_failure_is_reported w conceptA (lit "%%%") eq_refl)
    as [(_ & _ & Hnone & _) Hbad].
  split.
  - apply Hbad; [discriminate | reflexivity].
  - apply Hnone.
Defined.

End EnrichmentFailures.

(** ** More on captions: the script view and the copied text *)

Section CaptionsAndScript.
Import JS App View CaptionSpec Sample.
Implicit Types (s r script : JSString) (x : N).

Lemma split_not_nil sep s : split sep s ≠ [] ∨ (sep = [] ∧ s = []).
Proof.
  destruct sep as [|c sep].
  - destruct s; [by right|]. left. by simp split.
  - left. rewrite split_step. by destruct (indexOf _ _).
Qed.

Lemma join_cons sep p (parts : list JSString) :
  parts ≠ [] → join sep (p :: parts) = p ++ sep ++ join sep parts.
Proof. by destruct parts. Qed.

(** Joining what [split] gave restores the string. *)
Lemma join_split (c : N) sep s : join (c :: sep) (split (c :: sep) s) = s.
Proof.
  remember (length s) as n eqn:Hn. revert s Hn.
  induction n as [n IH] using lt_wf_ind. intros s ->.
  rewrite split_step. destruct (indexOf (c :: sep) s) as [j|] eqn:Hj; [|done].
  pose proof (indexOf_Some_length _ _ _ Hj) as Hlen.
  apply indexOf_Some in Hj as (a & r & -> & <-).
  rewrite take_app_length, (drop_app_add' a _ (length a)) by done.
  rewrite drop_app_length.
  rewrite join_cons.
  - rewrite (IH (length r)); [done| |done]. rewrite !length_app. simpl. lia.
  - by destruct (split_not_nil (c :: sep) r) as [?|[? _]].
Qed.

(** A single-character separator splits a text part by part. *)
Lemma split_single_app x s r :
  split [x] (s ++ x :: r) = split [x] s ++ split [x] r.
Proof.
  remember (length s) as n eqn:Hn. revert s Hn.
  induction n as [n IH] using lt_wf_ind. intros s ->.
  rewrite (split_step x [] s). destruct (indexOf [x] s) as [j|] eqn:Hj.
  - pose proof (indexOf_take [x] s j (ltac:(done)) Hj) as Hfree.
    apply indexOf_Some in Hj as (a & t & -> & <-).
    rewrite take_app_length in Hfree. apply indexOf_single in Hfree.
    rewrite split_step. rewrite <- !app_assoc. simpl.
    rewrite (indexOf_single_first x a _ Hfree).
    rewrite !take_app_length.
    rewrite !(drop_app_add' a _ (length a) 1) by done. simpl. rewrite !drop_0.
    rewrite (IH (length t)); [done| |done]. rewrite !length_app. simpl. lia.
  - apply indexOf_single in Hj. rewrite split_step.
    rewrite (indexOf_single_first x s r Hj), take_app_length.
    rewrite (drop_app_add' s _ (length s) 1) by done. done.
Qed.

Lemma join_truthy (parts : list JSString) :
  Forall (λ p, truthy p = true) parts →
  parts ≠ [] → join newline parts ≠ [].
Proof.
  intros HF Hne. destruct parts as [|p parts]; [done|].
  apply Forall_cons in HF as [Hp _]. destruct p; [done|].
  destruct parts; done.
Qed.

Lemma join_app (a b : list JSString) :
  a ≠ [] → b ≠ [] → join newline (a ++ b) = join newline a ++ newline ++ join newline b.
Proof.
  intros Ha Hb. induction a as [|p a IH]; [done|].
  destruct a as [|q a].
  - simpl. by destruct b.
  - change ((p :: q :: a) ++ b) with (p :: ((q :: a) ++ b)).
    rewrite !join_cons by done. rewrite IH by done. by rewrite <- !app_assoc.
Qed.

(** The caption lines of a script. *)
Lemma extractCaptions_lines script :
  let captions :=
    List.filter truthy
      (captionOf <$> List.filter (includes captionMarker) (split newline script)) in
  extractCaptions script = join newline captions
  ∧ (extractCaptions script = [] ↔ captions = [])
  ∧ (extractCaptions script ≠ [] → split newline (extractCaptions script) = captions).
Proof.
  intros captions. pose proof (caption_lines_wf script) as Hwf. fold captions in Hwf.
  unfold extractCaptions. fold captions. clearbody captions.
  assert (Forall (λ p, truthy p = true) captions) as Ht.
  { eapply Forall_impl; [apply Hwf|]. by intros p [? _]. }
  assert (join newline captions = [] ↔ captions = []) as Hnil.
  { split; [|by intros ->]. intros Hempty.
    destruct captions as [|p ps]; [done|]. by destruct (join_truthy (p :: ps)). }
  split; [done|]. split; [done|].
  intros Hne. unfold newline. apply split_join_single.
  - intros ->. by apply Hne.
  - eapply Forall_impl; [apply Hwf|]. by intros p (_ & ? & _).
Qed.

(** X15.  Captions are extracted line by line: the captions of two texts put
    on consecutive lines are the captions of the first followed, on a
    new line, by the captions of the second; a text without captions
    contributes nothing, not even an empty line. *)
Theorem extractCaptions_line_by_line (script1 script2 : JS.JSString) :
  extractCaptions (script1 ++ newline ++ script2) =
  match extractCaptions script1, extractCaptions script2 with
  | [], captions | captions, [] => captions
  | captions1, captions2 => captions1 ++ newline ++ captions2
  end.
Proof.
  destruct (extractCaptions_lines script1) as (E1 & Hnil1 & _).
  destruct (extractCaptions_lines script2) as (E2 & Hnil2 & _).
  unfold extractCaptions at 1. unfold newline at 2. simpl app.
  rewrite split_single_app, List.filter_app, fmap_app, List.filter_app.
  fold newline.
  set (c1 := List.filter truthy _) in *. set (c2 := List.filter truthy _) in *.
  destruct (extractCaptions script1) as [|a1 t1] eqn:X1.
  - rewrite (proj1 Hnil1 eq_refl). simpl. by rewrite E2.
  - destruct (extractCaptions script2) as [|a2 t2] eqn:X2.
    + rewrite (proj1 Hnil2 eq_refl), app_nil_r. by rewrite <- E1.
    + rewrite join_app, <- E1, <- E2; [done| |].
      * intros Hc1. by apply Hnil1 in Hc1.
      * intros Hc2. by apply Hnil2 in Hc2.
Qed.

(** A non-empty extraction consists of non-empty lines without marker. *)
Lemma extractCaptions_clean_lines script :
  extractCaptions script ≠ [] →
  Forall (λ line, line ≠ [] ∧ indexOf captionMarker line = None)
    (split newline (extractCaptions script)).
Proof.
  intros Hne. destruct (extractCaptions_lines script) as (_ & _ & Hlines).
  rewrite (Hlines Hne).
  eapply Forall_impl; [apply caption_lines_wf|].
  intros line (Ht & _ & Hfree). split; [by destruct line | done].
Qed.

Ltac logged H :=
  eapply H;
  [ simpl; rewrite <- ?app_assoc; reflexivity
  | repeat (apply Forall_cons; split; [done|]); apply Forall_nil_2 ].

(** The effects of one event are appended to the log, and a text
    written to the clipboard is a non-empty extraction. *)
Lemma step_appends (w : World) (e : Event) :
  ∃ new, effects (step w e) = effects w ++ new
         ∧ Forall (λ eff, ∀ text, eff = ClipboardWriteText text →
                     ∃ script, text = extractCaptions script ∧ text ≠ []) new.
Proof.
  assert (∀ log : list Effect, log = effects w →
            ∃ new, log = effects w ++ new
              ∧ Forall (λ eff, ∀ text, eff = ClipboardWriteText text →
                          ∃ script, text = extractCaptions script ∧ text ≠ []) new)
    as Hsame.
  { intros log ->. exists []. by rewrite app_nil_r. }
  assert (∀ (log added : list Effect),
            log = effects w ++ added →
            Forall (λ eff, ∀ text, eff ≠ ClipboardWriteText text) added →
            ∃ new, log = effects w ++ new
              ∧ Forall (λ eff, ∀ text, eff = ClipboardWriteText text →
                          ∃ script, text = extractCaptions script ∧ text ≠ []) new)
    as Hother.
  { intros log added -> HF. exists added. split; [done|].
    eapply Forall_impl; [apply HF|]. intros eff Hno text ->. by destruct (Hno text). }
  destruct e; simpl; try (by apply Hsame).
  - unfold handleRecommend. destruct (missingInput _); logged Hother.
  - logged Hother.
  - logged Hother.
  - unfold handleGenerateAudio. destruct (selectedConcept _); [|by apply Hsame].
    logged Hother.
  - unfold copyCaptions. destruct (selectedConcept _) as [sel|]; [|by apply Hsame].
    destruct (truthy (extractCaptions (detailedScript sel))) eqn:Ht; simpl.
    + exists [ClipboardWriteText (extractCaptions (detailedScript sel));
              Alert AlertCaptionsCopied].
      split; [by rewrite <- app_assoc|].
      repeat constructor; [|done]. intros text [= <-].
      exists (detailedScript sel). split; [done|]. by intros Heq; rewrite Heq in Ht.
    + logged Hother.
  - unfold handleSaveConcept. destruct (selectedConcept _); [|by apply Hsame].
    destruct (List.find _ _); logged Hother.
  - unfold handleDeleteSaved. destruct confirmed; [|by apply Hsame].
    destruct (bool_decide _); by apply Hsame.
  - unfold clearLibrary. destruct confirmed; by apply Hsame.
  - unfold resume. destruct (pending w !! k) as [p|]; [|by apply Hsame].
    destruct p, o; try (by apply Hsame); try (by logged Hother).
    unfold speechResolved, currentAudioContext.
    destruct (truthy _); [|by apply Hsame].
    destruct (audioContextRef _), decodes; simpl;
      first [by apply Hsame | by logged Hother].
Qed.

(** X16.  What reaches the clipboard.  In every run, each text written to the
    clipboard is non-empty and is made of non-empty lines none of which
    contains the caption marker. *)
Theorem clipboard_text_is_clean (w0 : World) (trace : list Event) (text : JS.JSString) :
  effects w0 = [] →
  ClipboardWriteText text ∈ effects (run w0 trace) →
  text ≠ []
  ∧ Forall (λ line, line ≠ [] ∧ indexOf captionMarker line = None)
      (split newline text).
Proof.
  intros Hinit Hin.
  assert (Forall (λ eff, ∀ text, eff = ClipboardWriteText text →
                     ∃ script, text = extractCaptions script ∧ text ≠ [])
            (effects (run w0 trace))) as HF.
  { clear Hin. assert (Forall (λ eff, ∀ text, eff = ClipboardWriteText text →
                     ∃ script, text = extractCaptions script ∧ text ≠ [])
            (effects w0)) as H0 by (rewrite Hinit; constructor).
    clear Hinit. revert w0 H0.
    induction trace as [|e trace IH]; intros w0 H0; [done|].
    simpl. apply IH. destruct (step_appends w0 e) as (new & -> & Hnew).
    by apply Forall_app. }
  rewrite Forall_forall in HF.
  destruct (HF _ Hin text eq_refl) as (script & -> & Hne).
  split; [done|]. by apply extractCaptions_clean_lines.
Qed.

(** A script with one caption is copied. *)
Lemma clipboard_text_is_clean_witness :
  let c := conceptOf "D" "Title D" "intro" [] in
  let script := lit "intro" ++ newline ++ captionMarker ++ lit " Stay calm " in
  let d := {| id := id c; title := title c; hook := hook c; detailedScript := script;
              visualScenes := []; visualStyle := visualStyle c;
              targetAudience := targetAudience c;
              personalizedReason := personalizedReason c |} in
  lit "Stay calm" ≠ []
  ∧ Forall (λ line, line ≠ [] ∧ indexOf captionMarker line = None)
      (split newline (lit "Stay calm")).
Proof.
  intros c script d.
  apply (clipboard_text_is_clean initialWorld [ClickConcept d; ClickCopyCaptions]
           (lit "Stay calm")); [reflexivity|].
  vm_compute. repeat constructor.
Defined.

Lemma lineStyle_caption (line : JSString) :
  bool_decide (lineStyle line = CaptionLine) = includes captionMarker line.
Proof.
  unfold lineStyle. destruct (includes captionMarker line); [done|].
  by destruct (includes narrationMarker line).
Qed.

Lemma caption_paragraphs_length (lines : list JSString) :
  length (List.filter (λ p, bool_decide (p.1 = CaptionLine))
            ((λ line, (lineStyle line, line)) <$> lines))
  = length (List.filter (includes captionMarker) lines).
Proof.
  induction lines as [|line lines IH]; [done|].
  rewrite fmap_cons. cbn [List.filter fst]. rewrite lineStyle_caption.
  destruct (includes captionMarker line); simpl; by rewrite IH.
Qed.

(** X17.  The script view.  The paragraphs of the script view, joined by
    newlines, are the script; a paragraph is styled as a caption exactly
    when it contains the caption marker, whatever else it contains; and
    a non-empty extraction has at most as many lines as there are
    paragraphs styled as captions. *)
Theorem script_view_shows_the_script (c : ShortsConcept) :
  join newline (snd <$> scriptView c) = detailedScript c
  ∧ Forall (λ p, (p.1 = CaptionLine ↔ includes captionMarker p.2 = true)
                 ∧ (0x0A ∉ p.2)) (scriptView c)
  ∧ (extractCaptions (detailedScript c) ≠ [] →
     (length (split newline (extractCaptions (detailedScript c)))
      ≤ length (List.filter (λ p, bool_decide (p.1 = CaptionLine)) (scriptView c)))%nat).
Proof.
  unfold scriptView. split; [|split].
  - rewrite <- list_fmap_compose.
    change (snd ∘ _) with (@Datatypes.id JSString). rewrite list_fmap_id.
    apply join_split.
  - apply Forall_fmap. eapply Forall_impl; [apply (split_single_free 0x0A)|].
    intros line Hfree. simpl. split; [|done]. unfold lineStyle.
    destruct (includes captionMarker line); [done|].
    by destruct (includes narrationMarker line).
  - intros Hne. destruct (extractCaptions_lines (detailedScript c)) as (_ & _ & Hlines).
    rewrite (Hlines Hne).
    rewrite caption_paragraphs_length.
    etransitivity; [apply sublist_length, filter_sublist|].
    by rewrite length_fmap.
Qed.

Lemma script_view_shows_the_script_witness :
  let c := conceptOf "D" "Title D" "" [] in
  let script := lit "intro" ++ newline ++ captionMarker ++ lit " Stay calm " in
  let d := {| id := id c; title := title c; hook := hook c; detailedScript := script;
              visualScenes := []; visualStyle := visualStyle c;
              targetAudience := targetAudience c;
              personalizedReason := personalizedReason c |} in
  (length (split newline (extractCaptions script))
   ≤ length (List.filter (λ p, bool_decide (p.1 = CaptionLine)) (scriptView d)))%nat.
Proof.
  intros c script d.
  destruct (script_view_shows_the_script d) as (_ & _ & Hcount).
  apply Hcount. by vm_compute.
Defined.

End CaptionsAndScript.

(** ** The interface as a whole *)

Section Interface.
Import JS App View Sample.
Implicit Types (w : World) (e : Event).

(** X18.  The outcome of a recommendation request.  An accepted request
    empties the list of concepts, the selection and the preview and
    leaves the library view; when it resolves, its concepts become the
    list, and when it is rejected the list stays empty and the failure
    is logged and reported with one alert.  Either way the loading flag
    is cleared and the selection is still empty. *)
Theorem recommendation_outcomes (w : World) (result : list ShortsConcept) :
  missingInput (state w) = false →
  let asked := step w ClickRecommend in
  let resolved := step asked (Settle (length (pending w)) (Recommendations result)) in
  let rejected := step asked (Settle (length (pending w)) Rejects) in
  (concepts (state asked) = [] ∧ selectedConcept (state asked) = None
   ∧ previewImage (state asked) = None ∧ showSaved (state asked) = false
   ∧ loading (state asked) = true)
  ∧ (concepts (state resolved) = result ∧ loading (state resolved) = false
     ∧ selectedConcept (state resolved) = None
     ∧ effects resolved = effects asked)
  ∧ (concepts (state rejected) = [] ∧ loading (state rejected) = false
     ∧ selectedConcept (state rejected) = None
     ∧ effects rejected =
         effects asked ++ [ConsoleError InRecommend; Alert AlertRecommendFailed]).
Proof.
  intros Hok asked resolved rejected. subst asked resolved rejected.
  simpl. unfold handleRecommend. rewrite Hok. unfold resume. simpl.
  rewrite lookup_new_pending. simpl. by rewrite <- !app_assoc.
Qed.

Lemma recommendation_outcomes_witness :
  let w := run initialWorld [SetKeywords (lit "calm")] in
  concepts (state (step (step w ClickRecommend)
                     (Settle 0 (Recommendations [conceptA; conceptB]))))
    = [conceptA; conceptB].
Proof.
  intros w.
  destruct (recommendation_outcomes w [conceptA; conceptB] eq_refl)
    as (_ & (Hlist & _) & _).
  apply Hlist.
Defined.

(** X19.  Every click gets an answer.  Whenever the save button or the copy
    button exists, a click on it is answered with exactly one alert: a
    save with the saved or the already-saved notice, a copy with the
    copied or the nothing-to-extract notice. *)
Theorem save_and_copy_always_answer (w : World) (now : Z) :
  (enabled w (ClickSave now) = true →
   ∃ notice, (notice = AlertSaved ∨ notice = AlertAlreadySaved)
     ∧ effects (step w (ClickSave now)) = effects w ++ [Alert notice])
  ∧ (enabled w ClickCopyCaptions = true →
     ∃ sel, selectedConcept (state w) = Some sel
       ∧ (effects (step w ClickCopyCaptions) = effects w ++ [Alert AlertNoCaptions]
            ∧ extractCaptions (detailedScript sel) = []
          ∨ effects (step w ClickCopyCaptions) =
              effects w ++ [ClipboardWriteText (extractCaptions (detailedScript sel));
                            Alert AlertCaptionsCopied]
            ∧ extractCaptions (detailedScript sel) ≠ [])).
Proof.
  simpl. unfold hasSelection, handleSaveConcept, copyCaptions.
  destruct (selectedConcept (state w)) as [sel|]; [|by split].
  split; intros _.
  - destruct (List.find _ _); simpl; eauto.
  - exists sel. split; [done|].
    destruct (extractCaptions (detailedScript sel)) eqn:E; simpl.
    + by left.
    + right. by rewrite <- app_assoc.
Qed.

Lemma save_and_copy_always_answer_witness :
  let w := run initialWorld [ClickConcept conceptA] in
  ∃ notice, (notice = AlertSaved ∨ notice = AlertAlreadySaved)
    ∧ effects (step w (ClickSave 1)) = effects w ++ [Alert notice].
Proof.
  intros w.
  destruct (save_and_copy_always_answer w 1%Z) as [Hsave _].
  apply Hsave. reflexivity.
Defined.

Lemma possible_app w (t1 t2 : list Event) :
  possible w (t1 ++ t2) = true ↔
  possible w t1 = true ∧ possible (run w t1) t2 = true.
Proof.
  revert w. induction t1 as [|e t1 IH]; intros w; simpl.
  - split; [by intros ? | by intros [_ ?]].
  - rewrite !andb_true_iff, IH. tauto.
Qed.

Lemma run_app w (t1 t2 : list Event) : run w (t1 ++ t2) = run (run w t1) t2.
Proof. apply foldl_app. Qed.

(** X20.  A delete in the interface removes exactly one entry.  In every run
    that the interface allows, a delete button belongs to an entry of
    the library, and the library has no duplicate ids; so a confirmed
    delete makes the library exactly one entry shorter and leaves no
    entry with that id. *)
Theorem interface_delete_removes_one
    (trace : list Event) (target : JS.JSString) :
  possible initialWorld (trace ++ [ClickDelete target true]) = true →
  let before := run initialWorld trace in
  let after := run initialWorld (trace ++ [ClickDelete target true]) in
  S (length (savedConcepts (state after))) = length (savedConcepts (state before))
  ∧ target ∈ savedIds before
  ∧ target ∉ savedIds after.
Proof.
  intros Hp before after. subst before after. rewrite run_app.
  change (run ?w [ClickDelete target true]) with (handleDeleteSaved target true w).
  apply possible_app in Hp as [_ Hp]. simpl in Hp.
  rewrite andb_true_r in Hp. apply andb_true_iff in Hp as [_ Hin].
  apply bool_decide_eq_true in Hin.
  assert (NoDup (savedIds (run initialWorld trace))) as Hnd.
  { apply NoDup_savedIds_run. constructor. }
  unfold savedIds in *. rewrite deleted_library.
  split; [by apply filter_removes_one|]. split; [done | apply filter_removes_id].
Qed.

Lemma interface_delete_removes_one_witness :
  let trace := [SetKeywords (lit "calm"); ClickRecommend;
                Settle 0 (Recommendations [conceptA; conceptB]);
                ClickConcept conceptA; ClickSave 1; ClickConcept conceptB; ClickSave 2;
                ToggleShowSaved] in
  S (length (savedConcepts
               (state (run initialWorld (trace ++ [ClickDelete (lit "A") true])))))
  = length (savedConcepts (state (run initialWorld trace))).
Proof.
  intros trace. apply (interface_delete_removes_one trace (lit "A")).
  by vm_compute.
Defined.

End Interface.
